(** * Vault: a fixed-capacity pool of lockable slots (src/main.cpp)

    A shallow embedding of the class template [Vault<ElementData>] and of
    its nested [ElementView], followed by the properties of its operations
    [view], [allocate], the two [deallocate] overloads and [dump].

    The embedding follows one calling thread.  Every operation is a
    function from the pool state to a run: how the call ends (it returns,
    it throws, or it waits on a mutex that is held), the pool state at that
    point, and the ordered list of the synchronisation and output events
    the call performed.

    Positions and indices have the type [size_t] in the source; they are
    natural numbers here, compared only with the size of the array.  The
    [int] member of the payload is never computed with by the class and is
    an integer here. *)

From stdpp Require Import base list strings pretty.
From Stdlib Require Import ZArith.

Local Open Scope string_scope.
Local Open Scope nat_scope.

(** ** Constants, exceptions, events *)

(** [constexpr size_t maxElementNumber = 1024;] *)
Definition maxElementNumber : nat := 1024.

(** The two kinds of mutex of a [Vault]: its own member [access] (the
    directory mutex) and the member [access] of the element at a position. *)
Inductive mutex_id :=
| directory
| slot (i : nat).

(** The C++ types of the exceptions raised by the class.  All three
    [throw] statements construct a [std::out_of_range], and so does
    [std::array::at]. *)
Inductive exception_type :=
| std_out_of_range.

(** The text carried by an exception: the literal given at the [throw]
    statement, or the text composed by [std::array::at] from the index and
    the size (its wording belongs to the standard library). *)
Inductive what_text :=
| what_literal (s : string)
| what_array_at (n size : nat).

Record exception := mkException {
  etype : exception_type;
  what : what_text
}.

Definition out_of_range (s : string) : exception :=
  mkException std_out_of_range (what_literal s).

(** What a call does that another thread or the terminal can observe, in
    program order. *)
Inductive event :=
| ev_lock (m : mutex_id)
| ev_unlock (m : mutex_id)
| ev_store (i : nat) (b : bool)
| ev_exchange (i : nat) (b : bool)
| ev_print (i : nat) (f3 : string) (f1 : Z).

#[global] Instance mutex_id_eq_dec : EqDecision mutex_id.
Proof. solve_decision. Defined.

#[global] Instance event_eq_dec : EqDecision event.
Proof. solve_decision. Defined.

(** [class ElementView]: the member [ref] designates the [data] of one
    element, given here by the element's position in [storage]; the member
    [lock] owns that element's mutex for as long as the view lives. *)
Record ElementView := mkView { ref : nat }.

(** How a call ends. *)
Inductive result (A : Type) :=
| Returned (a : A)
| Thrown (e : exception)
| Blocked (m : mutex_id).
Arguments Returned {A} a.
Arguments Thrown {A} e.
Arguments Blocked {A} m.

(** In a list of events, [a] happens and [b] happens later than the first
    [a]. *)
Fixpoint before (a b : event) (tr : list event) : bool :=
  match tr with
  | [] => false
  | x :: tr' => if decide (x = a) then bool_decide (b ∈ tr') else before a b tr'
  end.

(** Whether the calling thread, holding the mutex [m] or not ([h]), holds
    it after the event [ev]. *)
Definition holds_step (m : mutex_id) (h : bool) (ev : event) : bool :=
  match ev with
  | ev_lock m' => if decide (m' = m) then true else h
  | ev_unlock m' => if decide (m' = m) then false else h
  | _ => h
  end.

(** Whether a call that held nothing at its start holds [m] after the
    events [tr]. *)
Definition holds (m : mutex_id) (tr : list event) : bool :=
  foldl (holds_step m) false tr.

(** Some event of [tr] takes the mutex [b] at a point where the call holds
    the mutex [a] ([h]: whether it holds [a] before [tr]). *)
Fixpoint takes_under (a b : mutex_id) (h : bool) (tr : list event) : bool :=
  match tr with
  | [] => false
  | ev :: tr' =>
      h && bool_decide (ev = ev_lock b)
      || takes_under a b (holds_step a h ev) tr'
  end.

Section Vault.

Context {ElementData : Type}.

(** [struct Element]: [access] is [true] while the mutex is held. *)
Record Element := mkElement {
  data : ElementData;
  access : bool;
  inUse : bool
}.

(** The data members of [Vault]: the array [storage] and the directory
    mutex [access] (named [Vault_access] here, the name [access] being the
    projection of [Element]). *)
Record Vault := mkVault {
  storage : list Element;
  Vault_access : bool
}.

(** A default-constructed [Vault]: [maxElementNumber] elements with a
    default-constructed payload, no mutex held, no element in use. *)
Definition Vault_init (d0 : ElementData) : Vault :=
  mkVault (replicate maxElementNumber (mkElement d0 false false)) false.

(** ** Runs *)

Record run (A : Type) := mkRun {
  res : result A;
  final : Vault;
  events : list event
}.
Arguments mkRun {A} res final events.
Arguments res {A} r.
Arguments final {A} r.
Arguments events {A} r.

Definition M (A : Type) : Type := Vault → run A.

Definition ret {A} (a : A) : M A := λ v, mkRun (Returned a) v [].

Definition throw {A} (e : exception) : M A := λ v, mkRun (Thrown e) v [].

Definition bind {A B} (f : A → M B) (m : M A) : M B := λ v,
  match m v with
  | mkRun (Returned a) v1 evs1 =>
      match f a v1 with
      | mkRun r v2 evs2 => mkRun r v2 (evs1 ++ evs2)
      end
  | mkRun (Thrown e) v1 evs1 => mkRun (Thrown e) v1 evs1
  | mkRun (Blocked mu) v1 evs1 => mkRun (Blocked mu) v1 evs1
  end.

#[global] Instance M_ret : MRet M := @ret.
#[global] Instance M_bind : MBind M := @bind.

Definition gets {A} (f : Vault → A) : M A := λ v, mkRun (Returned (f v)) v [].

(** A block whose local object has the destructor [dtor]: the destructor
    runs when the block is left, by [return] or by an exception. *)
Definition scope {A} (body : M A) (dtor : M unit) : M A := λ v,
  match body v with
  | mkRun (Returned a) v1 evs1 =>
      match dtor v1 with
      | mkRun _ v2 evs2 => mkRun (Returned a) v2 (evs1 ++ evs2)
      end
  | mkRun (Thrown e) v1 evs1 =>
      match dtor v1 with
      | mkRun _ v2 evs2 => mkRun (Thrown e) v2 (evs1 ++ evs2)
      end
  | mkRun (Blocked mu) v1 evs1 => mkRun (Blocked mu) v1 evs1
  end.

(** A block whose local object is moved out to the caller by [return]: its
    destructor runs in this block only when an exception leaves it. *)
Definition unwind {A} (body : M A) (dtor : M unit) : M A := λ v,
  match body v with
  | mkRun (Thrown e) v1 evs1 =>
      match dtor v1 with
      | mkRun _ v2 evs2 => mkRun (Thrown e) v2 (evs1 ++ evs2)
      end
  | r => r
  end.

(** ** Mutexes and the atomic flag *)

Definition set_access (b : bool) (e : Element) : Element :=
  mkElement (data e) b (inUse e).

Definition set_inUse (b : bool) (e : Element) : Element :=
  mkElement (data e) (access e) b.

Definition set_data (d : ElementData) (e : Element) : Element :=
  mkElement d (access e) (inUse e).

Definition held (m : mutex_id) (v : Vault) : bool :=
  match m with
  | directory => Vault_access v
  | slot i => from_option access false (storage v !! i)
  end.

Definition set_held (m : mutex_id) (b : bool) (v : Vault) : Vault :=
  match m with
  | directory => mkVault (storage v) b
  | slot i => mkVault (alter (set_access b) i (storage v)) (Vault_access v)
  end.

(** [std::mutex::lock], as done by the constructor of [std::unique_lock]:
    the call goes on only when the mutex is free. *)
Definition lock (m : mutex_id) : M unit := λ v,
  if held m v then mkRun (Blocked m) v []
  else mkRun (Returned ()) (set_held m true v) [ev_lock m].

(** [std::mutex::unlock], as done by [unique_lock::unlock] and by the
    destructor of a [unique_lock] that owns the mutex. *)
Definition unlock (m : mutex_id) : M unit := λ v,
  mkRun (Returned ()) (set_held m false v) [ev_unlock m].

(** [inUse.store(b)] on the element at position [i]. *)
Definition store (i : nat) (b : bool) : M unit := λ v,
  mkRun (Returned ())
        (mkVault (alter (set_inUse b) i (storage v)) (Vault_access v))
        [ev_store i b].

(** [inUse.exchange(b)] on the element at position [i]: the prior value is
    returned. *)
Definition exchange (i : nat) (b : bool) : M bool := λ v,
  mkRun (Returned (from_option inUse false (storage v !! i)))
        (mkVault (alter (set_inUse b) i (storage v)) (Vault_access v))
        [ev_exchange i b].

(** [storage.at(idx)]: bounds-checked access. *)
Definition storage_at (idx : nat) : M Element := λ v,
  match storage v !! idx with
  | Some e => mkRun (Returned e) v []
  | None =>
      mkRun (Thrown (mkException std_out_of_range
                       (what_array_at idx (length (storage v))))) v []
  end.

(** [std::ranges::find_if] and [find_if_not] over the array; an iterator is
    the position it designates, [end()] is the length. *)
Fixpoint find_if (p : Element → bool) (l : list Element) : nat :=
  match l with
  | [] => 0
  | e :: l' => if p e then 0 else S (find_if p l')
  end.

Definition find_if_not (p : Element → bool) (l : list Element) : nat :=
  find_if (λ e, negb (p e)) l.

(** ** ElementView *)

(** [explicit ElementView(Element &e) : lock{e.access}, ref{e.data} {}] *)
Definition ElementView_ctor (i : nat) : M ElementView :=
  lock (slot i) ;; mret (mkView i).

(** The implicit destructor: the member [lock] releases the mutex. *)
Definition ElementView_dtor (vw : ElementView) : M unit :=
  unlock (slot (ref vw)).

(** [ElementData &operator()() { return ref; }], read through and written
    through. *)
Definition ElementView_get (vw : ElementView) (v : Vault) : option ElementData :=
  data <$> storage v !! ref vw.

Definition ElementView_set (vw : ElementView) (d : ElementData) : M unit := λ v,
  mkRun (Returned ())
        (mkVault (alter (set_data d) (ref vw) (storage v)) (Vault_access v)) [].

(** ** The operations of Vault *)

(** [ElementView view(size_t idx)] *)
Definition view (idx : nat) : M ElementView :=
  _ ← storage_at idx;
  v ← ElementView_ctor idx;
  unwind (e ← storage_at idx;
          if negb (inUse e) then throw (out_of_range "no such element")
          else mret v)
         (ElementView_dtor v).

(** [ElementView allocate()] *)
Definition allocate : M ElementView :=
  lock directory ;;
  scope (iter ← gets (λ v, find_if_not inUse (storage v));
         end_ ← gets (λ v, length (storage v));
         if decide (iter = end_)
         then throw (out_of_range "no empty element found")
         else store iter true ;; ElementView_ctor iter)
        (unlock directory).

(** [bool deallocate(size_t idx)] *)
Definition deallocate (idx : nat) : M bool :=
  _ ← storage_at idx;
  lock (slot idx) ;;
  scope (exchange idx false) (unlock (slot idx)).

(** [bool deallocate(std::function<bool(const ElementData &)> pred)]; the
    predicate is a function that returns normally on every payload. *)
Definition deallocate_pred (pred : ElementData → bool) : M bool :=
  lock directory ;;
  iter ← gets (λ v, find_if (λ e, inUse e && pred (data e)) (storage v));
  end_ ← gets (λ v, length (storage v));
  if decide (iter = end_) then
    scope (mret false) (unlock directory)
  else
    lock (slot iter) ;;
    unlock directory ;;
    scope (exchange iter false) (unlock (slot iter)).

(** The driver's filling loop, [for (n = 0; n < count; n++) { auto view =
    v.allocate(); ... }], without the writes through the view: each view
    ends its life at the end of its iteration.  The views obtained are
    collected in order. *)
Fixpoint allocate_times (count : nat) : M (list ElementView) :=
  match count with
  | 0 => mret []
  | S count' =>
      vw ← allocate;
      ElementView_dtor vw ;;
      vws ← allocate_times count';
      mret (vw :: vws)
  end.

(** The [for] statements of the source: the body at i = 0, 1, ...  *)
Fixpoint for_ (ixs : list nat) (body : nat → M unit) : M unit :=
  match ixs with
  | [] => mret ()
  | i :: ixs' => body i ;; for_ ixs' body
  end.

Variable field_3 : ElementData → string.
Variable field_1 : ElementData → Z.

(** [fmt::print("{} {} {}\n", i, v().field_3, v().field_1)] *)
Definition print (i : nat) (vw : ElementView) : M unit := λ v,
  match ElementView_get vw v with
  | Some d => mkRun (Returned ()) v [ev_print i (field_3 d) (field_1 d)]
  | None => mkRun (Returned ()) v []
  end.

(** The body of the loop of [dump]: [auto v{view(i)}; fmt::print(...);],
    [v] ending its life with the iteration. *)
Definition dump_step (i : nat) : M unit :=
  v ← view i; scope (print i v) (ElementView_dtor v).

(** [void dump()] *)
Definition dump : M unit :=
  for_ (seq 0 maxElementNumber) dump_step.

End Vault.

Arguments mkRun {ElementData A} res final events.
Arguments res {ElementData A} r.
Arguments final {ElementData A} r.
Arguments events {ElementData A} r.
Arguments Element : clear implicits.
Arguments Vault : clear implicits.
Arguments M : clear implicits.
Arguments run : clear implicits.
Arguments maxElementNumber : simpl never.

(** [struct Data], the payload type of the driver's [Vault<Data>]. *)
Record Data := mkData {
  field_1 : Z;
  field_3 : string
}.

(** [Data{}]: [field_1{0}] and an empty string. *)
Definition Data_init : Data := mkData 0 "".

(** The predicate of the driver's draining loop:
    [d.field_3.starts_with("2_")]. *)
Definition prefix_pred (d : Data) : bool := String.prefix "2_" (field_3 d).

(** A pool state of the driver's instantiation: slots 0 and 2 in use, slot
    1 free with the payload of an earlier use, all later slots as
    constructed, no mutex held. *)
Definition sample : Vault Data :=
  mkVault ([mkElement (mkData 1 "1_1") false true;
            mkElement (mkData 2 "2_1") false false;
            mkElement (mkData 3 "2_2") false true]
           ++ replicate 1021 (mkElement Data_init false false)) false.

(** The pool with every slot in use and no mutex held. *)
Definition full : Vault Data :=
  mkVault (replicate maxElementNumber (mkElement Data_init false true)) false.

(** The state [sample] at a moment when another thread holds the mutex of
    slot 1, the first free slot. *)
Definition busy : Vault Data :=
  mkVault ([mkElement (mkData 1 "1_1") false true;
            mkElement (mkData 2 "2_1") true false;
            mkElement (mkData 3 "2_2") false true]
           ++ replicate 1021 (mkElement Data_init false false)) false.

(** * Notions used in the statements *)

Section Notions.

Context {ElementData : Type}.
Variables (field_3 : ElementData → string) (field_1 : ElementData → Z).
Implicit Types (v : Vault ElementData) (e : Element ElementData).

(** The array has [maxElementNumber] elements in every state of a [Vault]. *)
Definition wf v : Prop := length (storage v) = maxElementNumber.

(** No slot mutex is held. *)
Definition slots_unlocked v : Prop :=
  Forall (λ e, access e = false) (storage v).

(** The state after the first [k] slots of [v] were taken and their views
    closed. *)
Definition taken (k : nat) e_ix : Element ElementData → Element ElementData :=
  λ e, if decide (e_ix < k) then set_inUse true e else e.

Definition filled (k : nat) v : Vault ElementData :=
  mkVault (imap (taken k) (storage v)) false.

Definition fill_events (i : nat) : list event :=
  [ev_lock directory; ev_store i true; ev_lock (slot i); ev_unlock directory;
   ev_unlock (slot i)].

(** An operation keeps the relation [R] between the old and the new value
    of every slot, whichever way it ends. *)
Definition kept (R : relation (Element ElementData)) {A}
    (m : M ElementData A) : Prop :=
  ∀ v, Forall2 R (storage v) (storage (final (m v))).

(** The four relations used below. *)
Definition same_flag : relation (Element ElementData) :=
  λ e e', inUse e = inUse e'.
Definition same_data : relation (Element ElementData) :=
  λ e e', data e = data e'.
Definition flag_stays_set : relation (Element ElementData) :=
  λ e e', inUse e = true → inUse e' = true.
Definition flag_stays_clear : relation (Element ElementData) :=
  λ e e', inUse e = false → inUse e' = false.

(** The events of a completed iteration at slot [i] of [v]. *)
Definition visit v (i : nat) : list event :=
  match storage v !! i with
  | Some e => [ev_lock (slot i);
               ev_print i (field_3 (data e)) (field_1 (data e));
               ev_unlock (slot i)]
  | None => []
  end.

End Notions.

(** * The driver's loops

    The bodies of the driver's threads, as one thread runs them. *)

(** [constexpr size_t threadsCount = 8;] *)
Definition threadsCount : nat := 8.

Section Loops.

Context {ElementData : Type}.

(** A statement [view().member = ...]: the payload reached through the
    reference returned by [operator()] is changed in place. *)
Definition ElementView_modify (vw : ElementView)
    (f : ElementData → ElementData) : M ElementData () := λ v,
  mkRun (Returned ())
        (mkVault (alter (λ e, set_data (f (data e)) e) (ref vw) (storage v))
                 (Vault_access v)) [].

(** A loop over indices whose body yields a [bool], with the number of
    [true] results: the pattern [if (body(idx)) counter.fetch_add(1);]. *)
Fixpoint count_for (ixs : list nat) (body : nat → M ElementData bool)
    : M ElementData nat :=
  match ixs with
  | [] => ret 0
  | i :: ixs' =>
      body i ≫= λ b : bool,
      count_for ixs' body ≫= λ n : nat,
      ret (if b then S n else n)
  end.

(** The values taken by [idx] in [for (idx = i; idx < maxElementNumber;
    idx += 2)]; [fuel] bounds the number of iterations. *)
Fixpoint stride2 (fuel idx : nat) : list nat :=
  match fuel with
  | 0 => []
  | S fuel' =>
      if decide (idx < maxElementNumber) then idx :: stride2 fuel' (idx + 2)
      else []
  end.

(** The loop of thread [i] of the deallocation phase: [deallocate(idx)] at
    idx = i, i + 2, ..., counting the calls that return [true]. *)
Definition deallocate_thread (i : nat) : M ElementData nat :=
  count_for (stride2 maxElementNumber i) deallocate.

(** The loops of several threads run one after another, their counts
    added up (the shared counter [deallocationsCount]). *)
Fixpoint sum_for (ts : list nat) (body : nat → M ElementData nat)
    : M ElementData nat :=
  match ts with
  | [] => ret 0
  | t :: ts' =>
      body t ≫= λ c : nat,
      sum_for ts' body ≫= λ n : nat,
      ret (c + n)
  end.

Definition deallocate_phase : M ElementData nat :=
  sum_for (seq 0 threadsCount) deallocate_thread.

(** The draining loop [while (v.deallocate(pred)) counter.fetch_add(1);]:
    the number of calls that returned [true], or [None] when [fuel]
    iterations did not reach the call that returns [false]. *)
Fixpoint drain (fuel : nat) (pred : ElementData → bool)
    : M ElementData (option nat) :=
  match fuel with
  | 0 => ret None
  | S fuel' =>
      deallocate_pred pred ≫= λ b : bool,
      if b then drain fuel' pred ≫= λ n : option nat, ret (S <$> n)
      else ret (Some 0)
  end.

(** ** Counting and marking slots *)

(** The number of elements that satisfy [p]. *)
Fixpoint count_if (p : Element ElementData → bool)
    (l : list (Element ElementData)) : nat :=
  match l with
  | [] => 0
  | e :: l' => if p e then S (count_if p l') else count_if p l'
  end.

(** The number of slots in use. *)
Definition in_use (v : Vault ElementData) : nat := count_if inUse (storage v).

(** The positions of the free slots in increasing order, the first
    element of [l] being at position [i]. *)
Fixpoint free_from (i : nat) (l : list (Element ElementData)) : list nat :=
  match l with
  | [] => []
  | e :: l' => if inUse e then free_from (S i) l' else i :: free_from (S i) l'
  end.

Definition free_indices (v : Vault ElementData) : list nat :=
  free_from 0 (storage v).

(** The state [v] with the flag of every slot listed in [ixs] set to [b]. *)
Definition flag_at (b : bool) (ixs : list nat) (v : Vault ElementData)
    : Vault ElementData :=
  mkVault (imap (λ j e, if decide (j ∈ ixs) then set_inUse b e else e)
                (storage v))
          (Vault_access v).

(** Which mutexes are held: the directory mutex and, slot by slot, the
    slot mutexes. *)
Definition mutexes (v : Vault ElementData) : bool * list bool :=
  (Vault_access v, access <$> storage v).

(** Whether a slot is in use with a payload that satisfies [pred]. *)
Definition matches (pred : ElementData → bool) (e : Element ElementData) : bool :=
  inUse e && pred (data e).

(** The state [v] with every slot that is in use with a payload satisfying
    [pred] freed, and the directory mutex free. *)
Definition freed_where (pred : ElementData → bool) (v : Vault ElementData)
    : Vault ElementData :=
  mkVault ((λ e, if matches pred e then set_inUse false e else e)
             <$> storage v) false.

End Loops.

(** ** The filling loops of the driver *)

(** [fmt::format("{}_{}", a, b)] for two [size_t]: the decimal digits of
    [a], an underscore, the decimal digits of [b]. *)
Definition format_tag (a b : nat) : string := pretty a +:+ "_" +:+ pretty b.

(** The body of the filling loop of thread [i] at its iteration [n]:
    [auto view = v.allocate(); view().field_3.assign(fmt::format("{}_{}",
    i + 1, n + 1)); view().field_1 = 0;], the view ending its life with
    the iteration. *)
Definition fill_step (i n : nat) : M Data () :=
  allocate ≫= λ vw : ElementView,
  scope (ElementView_modify vw
           (λ d, mkData (field_1 d) (format_tag (i + 1) (n + 1))) ≫= λ _ : (),
         ElementView_modify vw (λ d, mkData 0 (field_3 d)))
        (ElementView_dtor vw).

(** [for (n = 0; n < maxElementNumber / threadsCount; n++) { ... }] *)
Definition fill_thread (i : nat) : M Data () :=
  for_ (seq 0 (maxElementNumber / threadsCount)) (fill_step i).

(** The filling loops of the threads 0, 1, ... run one after another. *)
Definition fill_phase : M Data () :=
  for_ (seq 0 threadsCount) fill_thread.

(** The element written by thread [i] at its iteration [n]. *)
Definition tagged (i n : nat) : Element Data :=
  mkElement (mkData 0 (format_tag (i + 1) (n + 1))) false true.

(** * Properties *)

Section Properties.

Context {ElementData : Type}.
Variables (field_3 : ElementData → string) (field_1 : ElementData → Z).
Implicit Types (v : Vault ElementData) (l : list (Element ElementData)).
Implicit Types (e : Element ElementData) (p : Element ElementData → bool).

(** ** Searching *)

Lemma find_if_le p l : find_if p l ≤ length l.
Proof. induction l as [|e l IH]; simpl; [lia|]. destruct (p e); simpl; lia. Qed.

Lemma find_if_first p l i e :
  l !! i = Some e → p e = true →
  (∀ j e', j < i → l !! j = Some e' → p e' = false) →
  find_if p l = i.
Proof.
  revert i. induction l as [|x l IH]; intros i Hi Hp Hlt; [done|].
  destruct i as [|i]; simpl in *.
  - injection Hi as ->. by rewrite Hp.
  - rewrite (Hlt 0 x); [|lia|done]. f_equal. apply IH; [done..|].
    intros j e' ? ?. apply (Hlt (S j)); [lia|done].
Qed.

Lemma find_if_none p l :
  Forall (λ e, p e = false) l → find_if p l = length l.
Proof. induction 1 as [|e l He _ IH]; simpl; [done|]. by rewrite He, IH. Qed.

Lemma find_if_found p l :
  find_if p l < length l → ∃ e, l !! find_if p l = Some e ∧ p e = true.
Proof.
  induction l as [|x l IH]; simpl; [lia|]. destruct (p x) eqn:Hx; simpl.
  - eauto.
  - intros ?. apply IH. lia.
Qed.

Lemma find_if_before p l j e :
  j < find_if p l → l !! j = Some e → p e = false.
Proof.
  revert j. induction l as [|x l IH]; intros j; simpl; [lia|].
  destruct (p x) eqn:Hx; [lia|]. destruct j as [|j]; simpl.
  - by intros _ [= <-].
  - intros ?. apply IH. lia.
Qed.

Lemma find_if_end_iff p l :
  find_if p l = length l ↔ Forall (λ e, p e = false) l.
Proof.
  split; [|apply find_if_none].
  induction l as [|x l IH]; simpl; [constructor|].
  destruct (p x) eqn:Hx; [done|]. intros [= ?]. constructor; auto.
Qed.

(** ** Updating one element *)

Lemma alter_Some (f : Element ElementData → Element ElementData) l i e :
  l !! i = Some e → alter f i l = <[i := f e]> l.
Proof.
  intros Hi. rewrite list_insert_alter. apply list_alter_ext; [|done].
  intros x. rewrite Hi. by intros [= <-].
Qed.

Lemma alter_alter_Some (f g : Element ElementData → Element ElementData) l i e :
  l !! i = Some e → alter f i (alter g i l) = <[i := f (g e)]> l.
Proof.
  intros Hi. rewrite list_alter_alter_eq. by rewrite (alter_Some _ _ _ e).
Qed.

Lemma insert_same l i e : l !! i = Some e → <[i := e]> l = l.
Proof. apply list_insert_id. Qed.

Lemma alter_access_inUse l i e b b' :
  l !! i = Some e →
  alter (set_access b) i (alter (set_inUse b') i l)
  = <[i := mkElement (data e) b b']> l.
Proof. apply alter_alter_Some. Qed.

Lemma lock_unlock_slot l i e :
  l !! i = Some e → access e = false →
  alter (set_access false) i (alter (set_access true) i l) = l.
Proof.
  intros Hi Ha. rewrite (alter_alter_Some _ _ _ _ e) by done.
  apply insert_same. rewrite Hi. destruct e; simpl in *. by subst.
Qed.

Lemma Vault_eta v b : Vault_access v = b → mkVault (storage v) b = v.
Proof. destruct v; simpl. by intros ->. Qed.

(** ** Sequencing *)

Lemma bind_run {A B} (m : M ElementData A) (f : A → M ElementData B) v a v' evs :
  m v = mkRun (Returned a) v' evs →
  (m ≫= f) v
  = mkRun (res (f a v')) (final (f a v')) (evs ++ events (f a v')).
Proof. unfold mbind, M_bind, bind. intros ->. by destruct (f a v'). Qed.

Lemma bind_throw {A B} (m : M ElementData A) (f : A → M ElementData B) v x v' evs :
  m v = mkRun (Thrown x) v' evs →
  (m ≫= f) v = mkRun (Thrown x) v' evs.
Proof. unfold mbind, M_bind, bind. by intros ->. Qed.

(** Unfolds one operation down to the primitive steps. *)
Ltac run_ops :=
  unfold view, deallocate, deallocate_pred, allocate, ElementView_ctor,
    ElementView_dtor, storage_at, lock, unlock, exchange, store, gets, scope,
    unwind, throw, mbind, M_bind, bind, mret, M_ret, ret, held, set_held;
  cbn.

(** Goes through the steps, using the given facts about the state. *)
Tactic Notation "run_ops" "using" tactic3(tac) :=
  run_ops; repeat (progress (tac; cbn)).

(** ** allocate *)

Lemma allocate_run v i e :
  Vault_access v = false →
  storage v !! i = Some e → inUse e = false → access e = false →
  (∀ j e', j < i → storage v !! j = Some e' → inUse e' = true) →
  allocate v
  = mkRun (Returned (mkView i))
          (mkVault (<[i := mkElement (data e) true true]> (storage v)) false)
          [ev_lock directory; ev_store i true; ev_lock (slot i);
           ev_unlock directory].
Proof.
  intros Hdir Hi Hfree Hacc Hlt.
  assert (find_if_not inUse (storage v) = i) as Hfind.
  { apply find_if_first with e; [done|by rewrite Hfree|].
    intros j e' ? ?. by rewrite (Hlt j e'). }
  pose proof (lookup_lt_Some _ _ _ Hi) as Hlen.
  unfold allocate, mbind, M_bind, bind, scope, gets, lock, store,
    ElementView_ctor, mbind, M_bind, bind, lock, unlock, mret, M_ret, ret.
  simpl. rewrite Hdir. simpl. rewrite Hfind.
  destruct (decide (i = length (storage v))) as [->|_]; [lia|]. simpl.
  rewrite list_lookup_alter_eq, Hi. simpl. rewrite Hacc. simpl.
  by rewrite (alter_access_inUse _ _ e).
Qed.

Lemma allocate_full_run v :
  Vault_access v = false →
  Forall (λ e, inUse e = true) (storage v) →
  allocate v
  = mkRun (Thrown (out_of_range "no empty element found")) v
          [ev_lock directory; ev_unlock directory].
Proof.
  intros Hdir Hall.
  assert (find_if_not inUse (storage v) = length (storage v)) as Hfind.
  { apply find_if_none. eapply Forall_impl; [done|]. by intros e ->. }
  unfold allocate, mbind, M_bind, bind, scope, gets, lock, unlock, throw.
  simpl. rewrite Hdir. simpl. rewrite Hfind.
  rewrite decide_True by done. simpl. by rewrite Vault_eta.
Qed.

Lemma first_free_slot v :
  (∃ k e, storage v !! k = Some e ∧ inUse e = false) →
  ∃ i e,
    storage v !! i = Some e ∧ inUse e = false ∧
    (∀ j e', j < i → storage v !! j = Some e' → inUse e' = true).
Proof.
  intros (k & ek & Hk & Hfree).
  remember (find_if (λ e, negb (inUse e)) (storage v)) as i eqn:Ei.
  assert (i < length (storage v)) as Hlt.
  { destruct (decide (i = length (storage v))) as [Heq|Hne].
    - rewrite Ei in Heq. apply find_if_end_iff in Heq.
      rewrite Forall_lookup in Heq.
      specialize (Heq k ek Hk). simpl in Heq. by rewrite Hfree in Heq.
    - pose proof (find_if_le (λ e, negb (inUse e)) (storage v)). lia. }
  rewrite Ei in Hlt.
  destruct (find_if_found _ _ Hlt) as (e & Hi & He). rewrite <-Ei in Hi.
  apply negb_true_iff in He. exists i, e. split_and!; try done.
  intros j e' Hj Hj'. apply negb_false_iff. rewrite Ei in Hj.
  by apply (find_if_before (λ e, negb (inUse e)) (storage v) j e').
Qed.

(** C1: in a state with a free slot (the directory mutex free, no free slot
    locked), [allocate] returns a view of the free slot of least index; that
    slot becomes in use with its mutex owned by the view and its payload as
    before; no other slot and no payload changes. *)
Theorem allocate_takes_first_free v :
  Vault_access v = false →
  (∃ k e, storage v !! k = Some e ∧ inUse e = false) →
  (∀ k e, storage v !! k = Some e → inUse e = false → access e = false) →
  ∃ i e,
    storage v !! i = Some e ∧ inUse e = false ∧
    (∀ j e', j < i → storage v !! j = Some e' → inUse e' = true) ∧
    res (allocate v) = Returned (mkView i) ∧
    storage (final (allocate v)) !! i = Some (mkElement (data e) true true) ∧
    (∀ j, j ≠ i → storage (final (allocate v)) !! j = storage v !! j) ∧
    data <$> storage (final (allocate v)) = data <$> storage v.
Proof.
  intros Hdir Hex Hunl.
  destruct (first_free_slot v Hex) as (i & e & Hi & He & Hbefore).
  pose proof (lookup_lt_Some _ _ _ Hi) as Hlt.
  exists i, e. rewrite (allocate_run v i e) by eauto. simpl.
  split_and!; try done.
  - by apply list_lookup_insert_eq.
  - intros j Hj. by apply list_lookup_insert_ne.
  - rewrite list_fmap_insert. simpl. apply list_insert_id.
    by rewrite list_lookup_fmap, Hi.
Qed.

(** ** Filling the pool *)

Lemma filled_0 v : Vault_access v = false → filled 0 v = v.
Proof.
  intros Hdir. unfold filled. rewrite <-(Vault_eta v false) at 2 by done.
  f_equal. apply list_eq; intros j. rewrite list_lookup_imap.
  destruct (storage v !! j); simpl; [|done].
  unfold taken. by rewrite decide_False by lia.
Qed.

Lemma filled_all v k :
  length (storage v) ≤ k → storage (filled k v) = set_inUse true <$> storage v.
Proof.
  intros Hk. apply list_eq; intros j. simpl.
  rewrite list_lookup_imap, list_lookup_fmap.
  destruct (storage v !! j) as [e|] eqn:Hj; [|done]. simpl.
  apply lookup_lt_Some in Hj. unfold taken. by rewrite decide_True by lia.
Qed.

Lemma allocate_filled v k e :
  slots_unlocked v → Forall (λ e, inUse e = false) (storage v) →
  storage v !! k = Some e →
  ∃ v1,
    allocate (filled k v)
    = mkRun (Returned (mkView k)) v1
            [ev_lock directory; ev_store k true; ev_lock (slot k);
             ev_unlock directory] ∧
    ElementView_dtor (mkView k) v1
    = mkRun (Returned ()) (filled (S k) v) [ev_unlock (slot k)].
Proof.
  intros Hunl Hfree Hk.
  assert (access e = false) as Hacc
    by (eapply (proj1 (Forall_lookup _ _) Hunl); done).
  assert (inUse e = false) as Hin
    by (eapply (proj1 (Forall_lookup _ _) Hfree); done).
  eexists. split.
  - apply (allocate_run (filled k v) k e); try done.
    + simpl. rewrite list_lookup_imap, Hk. simpl. unfold taken.
      by rewrite decide_False by lia.
    + intros j e' Hj. simpl. rewrite list_lookup_imap.
      destruct (storage v !! j); [|done]. simpl. unfold taken.
      rewrite decide_True by done. by intros [= <-].
  - unfold ElementView_dtor, unlock. simpl. f_equal.
    unfold filled. f_equal.
    rewrite (alter_Some _ _ _ (mkElement (data e) true true))
      by (apply list_lookup_insert_eq; rewrite length_imap;
          by eapply lookup_lt_Some).
    rewrite list_insert_insert_eq.
    apply list_eq; intros j. destruct (decide (k = j)) as [<-|Hne].
    + rewrite list_lookup_insert_eq
        by (rewrite length_imap; by eapply lookup_lt_Some).
      rewrite list_lookup_imap, Hk. simpl. unfold taken.
      rewrite decide_True by lia. unfold set_access, set_inUse. simpl.
      by rewrite Hacc.
    + rewrite list_lookup_insert_ne by done. rewrite !list_lookup_imap.
      destruct (storage v !! j); [|done]. simpl. unfold taken.
      destruct (decide (j < k)), (decide (j < S k)); try done; lia.
Qed.

Lemma allocate_times_filled v n : ∀ k,
  slots_unlocked v → Forall (λ e, inUse e = false) (storage v) →
  k + n ≤ length (storage v) →
  allocate_times n (filled k v)
  = mkRun (Returned (mkView <$> seq k n)) (filled (k + n) v)
          (seq k n ≫= fill_events).
Proof.
  induction n as [|n IH]; intros k Hunl Hfree Hlen.
  - simpl. unfold mret, M_ret, ret. by rewrite Nat.add_0_r.
  - destruct (lookup_lt_is_Some_2 (storage v) k) as [e Hk]; [lia|].
    destruct (allocate_filled v k e Hunl Hfree Hk) as (v1 & Ha & Hd).
    cbn [allocate_times].
    rewrite (bind_run _ _ _ _ _ _ Ha), (bind_run _ _ _ _ _ _ Hd).
    rewrite (bind_run _ _ _ _ _ _ (IH (S k) Hunl Hfree ltac:(lia))).
    unfold mret at 1 2 3, M_ret, ret. cbn [res final events].
    rewrite app_nil_r. by replace (k + S n) with (S k + n) by lia.
Qed.

(** C2: with every slot in use (and the directory mutex free), [allocate]
    throws the "no empty element found" failure and leaves the state as it
    was; from an empty pool, [maxElementNumber] calls return views of the
    slots 0, 1, ... in turn, and the next call throws that failure. *)
Theorem allocate_capacity :
  (∀ v, Vault_access v = false →
        Forall (λ e, inUse e = true) (storage v) →
        res (allocate v) = Thrown (out_of_range "no empty element found") ∧
        final (allocate v) = v) ∧
  (∀ v, wf v → Vault_access v = false → slots_unlocked v →
        Forall (λ e, inUse e = false) (storage v) →
        let r := allocate_times maxElementNumber v in
        res r = Returned (mkView <$> seq 0 maxElementNumber) ∧
        storage (final r) = set_inUse true <$> storage v ∧
        res (allocate (final r))
        = Thrown (out_of_range "no empty element found") ∧
        final (allocate (final r)) = final r).
Proof.
  split.
  - intros v Hdir Hall. by rewrite allocate_full_run.
  - intros v Hwf Hdir Hunl Hfree.
    pose proof (allocate_times_filled v maxElementNumber 0 Hunl Hfree) as Hrun.
    rewrite filled_0 in Hrun by done. rewrite Hrun by (rewrite Hwf; lia).
    cbn [res final]. clear Hrun.
    assert (Forall (λ e, inUse e = true)
              (storage (filled (0 + maxElementNumber) v))) as Hall.
    { rewrite filled_all by (rewrite Hwf; lia).
      rewrite Forall_fmap. by apply Forall_true. }
    rewrite allocate_full_run by done. cbn [res final].
    split_and!; try done. apply filled_all. rewrite Hwf. lia.
Qed.

(** ** view *)

Lemma view_run_out v idx :
  storage v !! idx = None →
  view idx v
  = mkRun (Thrown (mkException std_out_of_range
                     (what_array_at idx (length (storage v))))) v [].
Proof. intros Hi. run_ops. by rewrite Hi. Qed.

Lemma view_run_blocked v idx e :
  storage v !! idx = Some e → access e = true →
  view idx v = mkRun (Blocked (slot idx)) v [].
Proof. intros Hi Ha. by run_ops using (rewrite ?Hi, ?Ha). Qed.

Lemma view_run_free v idx e :
  storage v !! idx = Some e → access e = false → inUse e = false →
  view idx v
  = mkRun (Thrown (out_of_range "no such element")) v
          [ev_lock (slot idx); ev_unlock (slot idx)].
Proof.
  intros Hi Ha Hu.
  run_ops using (rewrite ?list_lookup_alter_eq, ?Hi, ?Ha, ?Hu).
  rewrite (lock_unlock_slot _ _ e) by done. by destruct v.
Qed.

Lemma view_run_used v idx e :
  storage v !! idx = Some e → access e = false → inUse e = true →
  view idx v
  = mkRun (Returned (mkView idx))
          (mkVault (<[idx := set_access true e]> (storage v)) (Vault_access v))
          [ev_lock (slot idx)].
Proof.
  intros Hi Ha Hu.
  run_ops using (rewrite ?list_lookup_alter_eq, ?Hi, ?Ha, ?Hu).
  by rewrite (alter_Some _ _ _ e).
Qed.

(** ** deallocate *)

Lemma unlock_exchange_lock l i e :
  l !! i = Some e → access e = false →
  alter (set_access false) i
    (alter (set_inUse false) i (alter (set_access true) i l))
  = <[i := set_inUse false e]> l.
Proof.
  intros Hi Ha. rewrite list_alter_alter_eq.
  rewrite (alter_alter_Some _ _ _ _ e) by done.
  f_equal. destruct e; cbn in *. by subst.
Qed.

Lemma deallocate_run_out v idx :
  storage v !! idx = None →
  deallocate idx v
  = mkRun (Thrown (mkException std_out_of_range
                     (what_array_at idx (length (storage v))))) v [].
Proof. intros Hi. run_ops. by rewrite Hi. Qed.

Lemma deallocate_run_blocked v idx e :
  storage v !! idx = Some e → access e = true →
  deallocate idx v = mkRun (Blocked (slot idx)) v [].
Proof. intros Hi Ha. by run_ops using (rewrite ?Hi, ?Ha). Qed.

Lemma deallocate_run v idx e :
  storage v !! idx = Some e → access e = false →
  deallocate idx v
  = mkRun (Returned (inUse e))
          (mkVault (<[idx := set_inUse false e]> (storage v)) (Vault_access v))
          [ev_lock (slot idx); ev_exchange idx false; ev_unlock (slot idx)].
Proof.
  intros Hi Ha.
  run_ops using (rewrite ?list_lookup_alter_eq, ?Hi, ?Ha).
  by rewrite (unlock_exchange_lock _ _ e).
Qed.

Lemma deallocate_pred_run_blocked v pred :
  Vault_access v = true →
  deallocate_pred pred v = mkRun (Blocked directory) v [].
Proof. intros Hd. run_ops. by rewrite Hd. Qed.

Lemma deallocate_pred_run_none v pred :
  Vault_access v = false →
  find_if (λ e, inUse e && pred (data e)) (storage v) = length (storage v) →
  deallocate_pred pred v
  = mkRun (Returned false) v [ev_lock directory; ev_unlock directory].
Proof.
  intros Hd Hf. run_ops using (rewrite ?Hd, ?Hf, ?decide_True by done).
  by rewrite Vault_eta.
Qed.

Lemma deallocate_pred_run_slot_blocked v pred i e :
  Vault_access v = false →
  find_if (λ e, inUse e && pred (data e)) (storage v) = i →
  storage v !! i = Some e → access e = true →
  deallocate_pred pred v
  = mkRun (Blocked (slot i)) (mkVault (storage v) true) [ev_lock directory].
Proof.
  intros Hd Hf Hi Ha. pose proof (lookup_lt_Some _ _ _ Hi).
  by run_ops using (rewrite ?Hd, ?Hf, ?Hi, ?Ha, ?decide_False by lia).
Qed.

Lemma deallocate_pred_run v pred i e :
  Vault_access v = false →
  find_if (λ e, inUse e && pred (data e)) (storage v) = i →
  storage v !! i = Some e → access e = false →
  deallocate_pred pred v
  = mkRun (Returned (inUse e))
          (mkVault (<[i := set_inUse false e]> (storage v)) false)
          [ev_lock directory; ev_lock (slot i); ev_unlock directory;
           ev_exchange i false; ev_unlock (slot i)].
Proof.
  intros Hd Hf Hi Ha. pose proof (lookup_lt_Some _ _ _ Hi).
  run_ops using (rewrite ?list_lookup_alter_eq, ?Hd, ?Hf, ?Hi, ?Ha,
                   ?decide_False by lia).
  by rewrite (unlock_exchange_lock _ _ e).
Qed.

Lemma wf_lookup v idx : wf v → idx < maxElementNumber → is_Some (storage v !! idx).
Proof. intros Hwf Hlt. apply lookup_lt_is_Some. by rewrite Hwf. Qed.

Lemma wf_lookup_out v idx : wf v → maxElementNumber ≤ idx → storage v !! idx = None.
Proof. intros Hwf Hge. apply lookup_ge_None. by rewrite Hwf. Qed.

(** C3: for an index below [maxElementNumber] whose slot mutex is free,
    [deallocate] returns the prior [inUse] flag and leaves the slot free,
    the rest of the state as before; on a free slot it returns [false] and
    the state is the one before the call; on a slot just obtained from
    [allocate] (its view closed) two calls in a row return [true] then
    [false]; for an index from [maxElementNumber] on it throws the failure
    of [std::array::at]. *)
Theorem deallocate_index :
  (∀ v idx, wf v → idx < maxElementNumber → held (slot idx) v = false →
     ∃ e, storage v !! idx = Some e ∧
          res (deallocate idx v) = Returned (inUse e) ∧
          final (deallocate idx v)
          = mkVault (<[idx := set_inUse false e]> (storage v)) (Vault_access v) ∧
          inUse <$> storage (final (deallocate idx v)) !! idx = Some false ∧
          (inUse e = false → final (deallocate idx v) = v)) ∧
  (∀ v, Vault_access v = false →
     (∃ k e, storage v !! k = Some e ∧ inUse e = false) →
     (∀ k e, storage v !! k = Some e → inUse e = false → access e = false) →
     ∃ vw v1 v2 v3,
       allocate v = mkRun (Returned vw) v1 (events (allocate v)) ∧
       final (ElementView_dtor vw v1) = v2 ∧
       res (deallocate (ref vw) v2) = Returned true ∧
       final (deallocate (ref vw) v2) = v3 ∧
       res (deallocate (ref vw) v3) = Returned false ∧
       final (deallocate (ref vw) v3) = v3) ∧
  (∀ v idx, wf v → maxElementNumber ≤ idx →
     res (deallocate idx v)
     = Thrown (mkException std_out_of_range (what_array_at idx maxElementNumber)) ∧
     final (deallocate idx v) = v).
Proof.
  split_and!.
  - intros v idx Hwf Hlt Hheld.
    destruct (wf_lookup v idx Hwf Hlt) as [e Hi]. exists e.
    unfold held in Hheld. rewrite Hi in Hheld. cbn in Hheld.
    rewrite (deallocate_run v idx e) by done. cbn. split_and!; try done.
    { by rewrite list_lookup_insert_eq by by eapply lookup_lt_Some. }
    intros Hu. rewrite insert_same; [by destruct v|].
    rewrite Hi. destruct e; cbn in *. by subst.
  - intros v Hdir Hex Hunl.
    destruct (first_free_slot v Hex) as (i & e & Hi & Hu & Hbefore).
    pose proof (lookup_lt_Some _ _ _ Hi) as Hlen.
    rewrite (allocate_run v i e) by eauto. cbn.
    eexists (mkView i), _, _, _. split; [done|]. split; [done|]. cbn.
    rewrite (alter_Some _ _ _ (mkElement (data e) true true))
      by (by apply list_lookup_insert_eq).
    rewrite list_insert_insert_eq. cbn.
    rewrite (deallocate_run _ i (mkElement (data e) false true))
      by (done || by apply list_lookup_insert_eq). cbn.
    split; [done|]. split; [done|].
    rewrite list_insert_insert_eq.
    rewrite (deallocate_run _ i (mkElement (data e) false false))
      by (done || by apply list_lookup_insert_eq). cbn.
    split; [done|]. by rewrite list_insert_insert_eq.
  - intros v idx Hwf Hge.
    rewrite (deallocate_run_out v idx) by by apply wf_lookup_out.
    cbn. by rewrite Hwf.
Qed.

(** C4: with the directory mutex free, [deallocate(pred)] finds the slot of
    least index that is in use and whose payload satisfies [pred]; when
    there is one (its mutex free) the call clears that slot's flag and
    returns [true], the rest of the state as before; when there is none
    the call returns [false] and the state is the one before the call. *)
Theorem deallocate_first_match :
  (∀ v pred, Vault_access v = false →
     (∃ k e, storage v !! k = Some e ∧ inUse e = true ∧ pred (data e) = true) →
     (∀ k e, storage v !! k = Some e → inUse e = true → pred (data e) = true →
             access e = false) →
     ∃ i e,
       storage v !! i = Some e ∧ inUse e = true ∧ pred (data e) = true ∧
       (∀ j e', j < i → storage v !! j = Some e' →
                inUse e' = false ∨ pred (data e') = false) ∧
       res (deallocate_pred pred v) = Returned true ∧
       final (deallocate_pred pred v)
       = mkVault (<[i := set_inUse false e]> (storage v)) false) ∧
  (∀ v pred, Vault_access v = false →
     (∀ k e, storage v !! k = Some e →
             inUse e = false ∨ pred (data e) = false) →
     res (deallocate_pred pred v) = Returned false ∧
     final (deallocate_pred pred v) = v).
Proof.
  split.
  - intros v pred Hdir (k & ek & Hk & Hku & Hkp) Hunl.
    remember (find_if (λ e, inUse e && pred (data e)) (storage v)) as i eqn:Ei.
    assert (i < length (storage v)) as Hlt.
    { destruct (decide (i = length (storage v))) as [Heq|Hne].
      - rewrite Ei in Heq. apply find_if_end_iff in Heq.
        rewrite Forall_lookup in Heq. specialize (Heq k ek Hk). cbn in Heq.
        by rewrite Hku, Hkp in Heq.
      - pose proof (find_if_le (λ e, inUse e && pred (data e)) (storage v)).
        lia. }
    rewrite Ei in Hlt.
    destruct (find_if_found _ _ Hlt) as (e & Hi & He). rewrite <-Ei in Hi.
    apply andb_true_iff in He as [Hu Hp].
    exists i, e. rewrite (deallocate_pred_run v pred i e) by eauto.
    cbn. rewrite Hu. split_and!; try done.
    intros j e' Hj Hj'. rewrite Ei in Hj.
    pose proof (find_if_before _ _ _ _ Hj Hj') as Hn.
    apply andb_false_iff in Hn. done.
  - intros v pred Hdir Hnone.
    rewrite deallocate_pred_run_none; [done..|].
    apply find_if_none, Forall_lookup. intros j e Hj.
    apply andb_false_iff. eauto.
Qed.

(** C5, as the code has it: [view] throws [std::out_of_range] both for an
    index from [maxElementNumber] on (the failure of [std::array::at], no
    mutex touched) and for a free slot (text "no such element", the slot
    mutex taken and released, the state as before), so the two failures
    have one exception type and differ in their text only; for a slot in
    use it returns a view of that slot, whose mutex the view now owns. *)
Theorem view_outcomes :
  (∀ v idx, wf v → maxElementNumber ≤ idx →
     view idx v
     = mkRun (Thrown (mkException std_out_of_range
                        (what_array_at idx maxElementNumber))) v []) ∧
  (∀ v idx e, wf v → idx < maxElementNumber → storage v !! idx = Some e →
     access e = false → inUse e = false →
     view idx v
     = mkRun (Thrown (mkException std_out_of_range
                        (what_literal "no such element"))) v
             [ev_lock (slot idx); ev_unlock (slot idx)]) ∧
  (∀ v idx e, wf v → idx < maxElementNumber → storage v !! idx = Some e →
     access e = false → inUse e = true →
     res (view idx v) = Returned (mkView idx) ∧
     final (view idx v)
     = mkVault (<[idx := set_access true e]> (storage v)) (Vault_access v) ∧
     held (slot idx) (final (view idx v)) = true).
Proof.
  split_and!.
  - intros v idx Hwf Hge. rewrite view_run_out by by apply wf_lookup_out.
    by rewrite Hwf.
  - intros v idx e _ _ Hi Ha Hu. by apply (view_run_free v idx e).
  - intros v idx e _ _ Hi Ha Hu. rewrite (view_run_used v idx e) by done.
    cbn. split_and!; try done.
    by rewrite list_lookup_insert_eq by by eapply lookup_lt_Some.
Qed.

(** C7: for an index below [maxElementNumber] whose slot mutex is free,
    [deallocate(idx)] followed at once by [view(idx)] ends in the
    "no such element" failure of [view]. *)
Theorem deallocate_then_view v idx :
  wf v → idx < maxElementNumber → held (slot idx) v = false →
  ∃ b v', deallocate idx v = mkRun (Returned b) v' (events (deallocate idx v)) ∧
          res (view idx v') = Thrown (out_of_range "no such element") ∧
          res ((deallocate idx ;; view idx) v)
          = Thrown (out_of_range "no such element").
Proof.
  intros Hwf Hlt Hheld. destruct (wf_lookup v idx Hwf Hlt) as [e Hi].
  unfold held in Hheld. rewrite Hi in Hheld. cbn in Hheld.
  pose proof (deallocate_run v idx e Hi Hheld) as Hd.
  assert (view idx (mkVault (<[idx := set_inUse false e]> (storage v))
                            (Vault_access v))
          = mkRun (Thrown (out_of_range "no such element"))
                  (mkVault (<[idx := set_inUse false e]> (storage v))
                           (Vault_access v))
                  [ev_lock (slot idx); ev_unlock (slot idx)]) as Hv.
  { apply (view_run_free _ idx (set_inUse false e)); [|done..].
    cbn. apply list_lookup_insert_eq. by eapply lookup_lt_Some. }
  eexists _, _. split; [by rewrite Hd|].
  split; [by rewrite Hv|].
  by rewrite (bind_run _ _ _ _ _ _ Hd), Hv.
Qed.

(** ** What an operation keeps

    A relation [R] between the old and the new value of an element, kept by
    taking and releasing the element's mutex, is kept slot by slot by every
    operation built from steps that keep it, whichever way the operation
    ends. *)

Section Frame.

Variable R : relation (Element ElementData).
Context `{!Reflexive R, !Transitive R}.
Hypothesis R_access : ∀ b e, R e (set_access b e).

Lemma kept_ret {A} (a : A) : kept R (mret a).
Proof. intros v. reflexivity. Qed.

Lemma kept_throw {A} x : kept R (@throw ElementData A x).
Proof. intros v. reflexivity. Qed.

Lemma kept_gets {A} (f : Vault ElementData → A) : kept R (gets f).
Proof. intros v. reflexivity. Qed.

Lemma kept_bind {A B} (m : M ElementData A) (f : A → M ElementData B) :
  kept R m → (∀ a, kept R (f a)) → kept R (m ≫= f).
Proof.
  intros Hm Hf v. specialize (Hm v). unfold mbind, M_bind, bind.
  destruct (m v) as [[a|x|mu] v1 evs1]; cbn in *; try done.
  specialize (Hf a v1). destruct (f a v1) as [r v2 evs2]; cbn in *.
  by etrans.
Qed.

Lemma kept_scope {A} (body : M ElementData A) dtor :
  kept R body → kept R dtor → kept R (scope body dtor).
Proof.
  intros Hb Hd v. specialize (Hb v). unfold scope.
  destruct (body v) as [[a|x|mu] v1 evs1]; cbn in *; try done;
    specialize (Hd v1); destruct (dtor v1) as [r v2 evs2]; cbn in *;
    by etrans.
Qed.

Lemma kept_unwind {A} (body : M ElementData A) dtor :
  kept R body → kept R dtor → kept R (unwind body dtor).
Proof.
  intros Hb Hd v. specialize (Hb v). unfold unwind.
  destruct (body v) as [[a|x|mu] v1 evs1]; cbn in *; try done.
  specialize (Hd v1); destruct (dtor v1) as [r v2 evs2]; cbn in *.
  by etrans.
Qed.

Lemma kept_if {A} (b : bool) (m1 m2 : M ElementData A) :
  kept R m1 → kept R m2 → kept R (if b then m1 else m2).
Proof. by destruct b. Qed.

Lemma kept_if_decide {A} P `{Decision P} (m1 m2 : M ElementData A) :
  kept R m1 → kept R m2 → kept R (if decide P then m1 else m2).
Proof. by destruct (decide P). Qed.

Lemma kept_alter (f : Element ElementData → Element ElementData) i l :
  (∀ e, R e (f e)) → Forall2 R l (alter f i l).
Proof.
  intros Hf. apply Forall2_alter_r; [reflexivity|].
  intros x y _ _ Hxy. etrans; [done|apply Hf].
Qed.

Lemma kept_lock m : kept R (lock m).
Proof.
  intros v. unfold lock. destruct (held m v); cbn; [reflexivity|].
  destruct m; cbn; [reflexivity|]. by apply kept_alter.
Qed.

Lemma kept_unlock m : kept R (unlock m).
Proof.
  intros v. unfold unlock. destruct m; cbn; [reflexivity|].
  by apply kept_alter.
Qed.

Lemma kept_storage_at idx : kept R (storage_at idx).
Proof. intros v. unfold storage_at. destruct (_ !! _); reflexivity. Qed.

Lemma kept_store i b : (∀ e, R e (set_inUse b e)) → kept R (store i b).
Proof. intros Hb v. cbn. by apply kept_alter. Qed.

Lemma kept_exchange i b : (∀ e, R e (set_inUse b e)) → kept R (exchange i b).
Proof. intros Hb v. cbn. by apply kept_alter. Qed.

Lemma kept_ElementView_ctor i : kept R (ElementView_ctor i).
Proof. apply kept_bind; [apply kept_lock|]. intros _. apply kept_ret. Qed.

Lemma kept_ElementView_dtor vw : kept R (ElementView_dtor vw).
Proof. apply kept_unlock. Qed.

Lemma kept_ElementView_set vw d :
  (∀ e, R e (set_data d e)) → kept R (ElementView_set vw d).
Proof. intros Hd v. cbn. by apply kept_alter. Qed.

Lemma kept_view idx : kept R (view idx).
Proof.
  unfold view. apply kept_bind; [apply kept_storage_at|]. intros _.
  apply kept_bind; [apply kept_ElementView_ctor|]. intros vw.
  apply kept_unwind; [|apply kept_ElementView_dtor].
  apply kept_bind; [apply kept_storage_at|]. intros e.
  apply kept_if; [apply kept_throw|apply kept_ret].
Qed.

Lemma kept_allocate : (∀ e, R e (set_inUse true e)) → kept R allocate.
Proof.
  intros Hb. unfold allocate. apply kept_bind; [apply kept_lock|]. intros _.
  apply kept_scope; [|apply kept_unlock].
  apply kept_bind; [apply kept_gets|]. intros iter.
  apply kept_bind; [apply kept_gets|]. intros end_.
  apply kept_if_decide; [apply kept_throw|].
  apply kept_bind; [by apply kept_store|]. intros _.
  apply kept_ElementView_ctor.
Qed.

Lemma kept_deallocate idx : (∀ e, R e (set_inUse false e)) → kept R (deallocate idx).
Proof.
  intros Hb. unfold deallocate.
  apply kept_bind; [apply kept_storage_at|]. intros _.
  apply kept_bind; [apply kept_lock|]. intros _.
  apply kept_scope; [by apply kept_exchange|apply kept_unlock].
Qed.

Lemma kept_deallocate_pred pred :
  (∀ e, R e (set_inUse false e)) → kept R (deallocate_pred pred).
Proof.
  intros Hb. unfold deallocate_pred.
  apply kept_bind; [apply kept_lock|]. intros _.
  apply kept_bind; [apply kept_gets|]. intros iter.
  apply kept_bind; [apply kept_gets|]. intros end_.
  apply kept_if_decide.
  - apply kept_scope; [apply kept_ret|apply kept_unlock].
  - apply kept_bind; [apply kept_lock|]. intros _.
    apply kept_bind; [apply kept_unlock|]. intros _.
    apply kept_scope; [by apply kept_exchange|apply kept_unlock].
Qed.

Lemma kept_for_ ixs (body : nat → M ElementData ()) :
  (∀ i, kept R (body i)) → kept R (for_ ixs body).
Proof.
  intros Hb. induction ixs as [|i ixs IH]; cbn [for_]; [apply kept_ret|].
  apply kept_bind; [apply Hb|]. intros _. apply IH.
Qed.

Lemma kept_print i vw : kept R (print field_3 field_1 i vw).
Proof. intros v. unfold print. destruct (ElementView_get vw v); reflexivity. Qed.

Lemma kept_dump : kept R (dump field_3 field_1).
Proof.
  unfold dump, dump_step. apply kept_for_. intros i.
  apply kept_bind; [apply kept_view|]. intros vw.
  apply kept_scope; [apply kept_print|apply kept_ElementView_dtor].
Qed.

End Frame.

(** Every operation keeps the number of slots. *)
Lemma kept_length {A} (m : M ElementData A) v :
  kept (λ _ _, True) m → length (storage (final (m v))) = length (storage v).
Proof. intros Hm. symmetry. by eapply Forall2_length. Qed.

Lemma operations_keep_wf v :
  wf v →
  (∀ idx, wf (final (view idx v))) ∧
  wf (final (allocate v)) ∧
  (∀ idx, wf (final (deallocate idx v))) ∧
  (∀ pred, wf (final (deallocate_pred pred v))) ∧
  wf (final (dump field_3 field_1 v)).
Proof.
  unfold wf. intros Hwf. split_and!; intros; rewrite kept_length; try done.
  - by apply kept_view.
  - by apply kept_allocate.
  - by apply kept_deallocate.
  - by apply kept_deallocate_pred.
  - by apply kept_dump.
Qed.

#[local] Instance same_flag_refl : Reflexive (@same_flag ElementData).
Proof. by intros e. Qed.
#[local] Instance same_flag_trans : Transitive (@same_flag ElementData).
Proof. unfold same_flag. intros e1 e2 e3. congruence. Qed.
#[local] Instance same_data_refl : Reflexive (@same_data ElementData).
Proof. by intros e. Qed.
#[local] Instance same_data_trans : Transitive (@same_data ElementData).
Proof. unfold same_data. intros e1 e2 e3. congruence. Qed.
#[local] Instance flag_stays_set_refl : Reflexive (@flag_stays_set ElementData).
Proof. by intros e He. Qed.
#[local] Instance flag_stays_set_trans : Transitive (@flag_stays_set ElementData).
Proof. unfold flag_stays_set. intros e1 e2 e3. auto. Qed.
#[local] Instance flag_stays_clear_refl : Reflexive (@flag_stays_clear ElementData).
Proof. by intros e He. Qed.
#[local] Instance flag_stays_clear_trans : Transitive (@flag_stays_clear ElementData).
Proof. unfold flag_stays_clear. intros e1 e2 e3. auto. Qed.

Lemma same_flag_fmap l k :
  Forall2 same_flag l k → inUse <$> k = inUse <$> l.
Proof.
  intros H. symmetry. apply list_eq_Forall2, Forall2_fmap.
  by eapply Forall2_impl.
Qed.

Lemma same_data_fmap l k :
  Forall2 same_data l k → data <$> k = data <$> l.
Proof.
  intros H. symmetry. apply list_eq_Forall2, Forall2_fmap.
  by eapply Forall2_impl.
Qed.

(** C8: [view] (however it ends), the end of a view's life, a write
    through a view and [dump] leave the [inUse] flag of every slot as it
    was; [allocate] never clears a flag that is set; neither [deallocate]
    ever sets a flag that is clear. *)
Theorem inUse_lifecycle v :
  (∀ idx, inUse <$> storage (final (view idx v)) = inUse <$> storage v) ∧
  (∀ vw, inUse <$> storage (final (ElementView_dtor vw v))
         = inUse <$> storage v) ∧
  (∀ vw d, inUse <$> storage (final (ElementView_set vw d v))
           = inUse <$> storage v) ∧
  inUse <$> storage (final (dump field_3 field_1 v)) = inUse <$> storage v ∧
  Forall2 flag_stays_set (storage v) (storage (final (allocate v))) ∧
  (∀ idx, Forall2 flag_stays_clear (storage v)
            (storage (final (deallocate idx v)))) ∧
  (∀ pred, Forall2 flag_stays_clear (storage v)
             (storage (final (deallocate_pred pred v)))).
Proof.
  split_and!.
  - intros idx. by apply same_flag_fmap, (kept_view same_flag).
  - intros vw. by apply same_flag_fmap, (kept_ElementView_dtor same_flag).
  - intros vw d. by apply same_flag_fmap, (kept_ElementView_set same_flag).
  - by apply same_flag_fmap, (kept_dump same_flag).
  - apply (kept_allocate flag_stays_set); by (intros; hnf).
  - intros idx. apply (kept_deallocate flag_stays_clear); by (intros; hnf).
  - intros pred.
    apply (kept_deallocate_pred flag_stays_clear); by (intros; hnf).
Qed.

(** C10: neither [deallocate] changes the payload of any slot, however the
    call ends; [deallocate(pred)] leaves every slot other than the first
    match exactly as it was. *)
Theorem deallocate_frame v :
  (∀ idx, data <$> storage (final (deallocate idx v)) = data <$> storage v) ∧
  (∀ pred, data <$> storage (final (deallocate_pred pred v))
           = data <$> storage v) ∧
  (∀ pred j,
     j ≠ find_if (λ e, inUse e && pred (data e)) (storage v) →
     storage (final (deallocate_pred pred v)) !! j = storage v !! j).
Proof.
  split_and!.
  - intros idx. by apply same_data_fmap, (kept_deallocate same_data).
  - intros pred. by apply same_data_fmap, (kept_deallocate_pred same_data).
  - intros pred j Hj.
    destruct (Vault_access v) eqn:Hd.
    { by rewrite deallocate_pred_run_blocked. }
    remember (find_if (λ e, inUse e && pred (data e)) (storage v)) as i eqn:Ei.
    destruct (decide (i = length (storage v))) as [Hend|Hne].
    { by rewrite deallocate_pred_run_none by congruence. }
    pose proof (find_if_le (λ e, inUse e && pred (data e)) (storage v)).
    destruct (lookup_lt_is_Some_2 (storage v) i) as [e Hi]; [lia|].
    destruct (access e) eqn:Ha.
    + by rewrite (deallocate_pred_run_slot_blocked v pred i e).
    + rewrite (deallocate_pred_run v pred i e) by done. cbn.
      by apply list_lookup_insert_ne.
Qed.

(** C9, as the code has it: when [allocate] succeeds, its steps are, in
    this order, taking the directory mutex, setting the flag of the chosen
    slot, taking that slot's mutex, releasing the directory mutex; the slot
    mutex is thus taken while the directory mutex is held, and on return
    the directory mutex is free and the slot mutex is owned by the view. *)
Theorem allocate_lock_order v i e :
  Vault_access v = false →
  storage v !! i = Some e → inUse e = false → access e = false →
  (∀ j e', j < i → storage v !! j = Some e' → inUse e' = true) →
  events (allocate v)
  = [ev_lock directory; ev_store i true; ev_lock (slot i); ev_unlock directory] ∧
  before (ev_store i true) (ev_lock (slot i)) (events (allocate v)) = true ∧
  before (ev_lock (slot i)) (ev_unlock directory) (events (allocate v)) = true ∧
  before (ev_unlock directory) (ev_lock (slot i)) (events (allocate v)) = false ∧
  takes_under directory (slot i) false (events (allocate v)) = true ∧
  holds directory (events (allocate v)) = false ∧
  holds (slot i) (events (allocate v)) = true ∧
  res (allocate v) = Returned (mkView i) ∧
  held directory (final (allocate v)) = false ∧
  held (slot i) (final (allocate v)) = true.
Proof.
  intros Hdir Hi Hu Ha Hbefore. rewrite (allocate_run v i e) by done.
  cbn [events res final]. split_and!; try done.
  - cbn. rewrite decide_False by done. rewrite decide_True by done.
    apply bool_decide_eq_true. by constructor.
  - cbn. rewrite decide_False by done. rewrite decide_False by done.
    rewrite decide_True by done. apply bool_decide_eq_true. by constructor.
  - cbn. rewrite !decide_True by done.
    rewrite (bool_decide_eq_true_2 (ev_lock (slot i) = ev_lock (slot i)))
      by done.
    cbn. by rewrite orb_true_r.
  - cbn. rewrite decide_False by done. by rewrite decide_True by done.
  - cbn. by rewrite list_lookup_insert_eq by by eapply lookup_lt_Some.
Qed.

(** ** dump *)

Lemma dump_step_used v i e :
  storage v !! i = Some e → access e = false → inUse e = true →
  dump_step field_3 field_1 i v
  = mkRun (Returned ()) v (visit field_3 field_1 v i).
Proof.
  intros Hi Ha Hu. unfold dump_step.
  rewrite (bind_run _ _ _ _ _ _ (view_run_used v i e Hi Ha Hu)).
  pose proof (lookup_lt_Some _ _ _ Hi) as Hlt.
  unfold scope, print, ElementView_get, ElementView_dtor, unlock, visit.
  cbn. rewrite list_lookup_insert_eq, Hi by done. cbn.
  rewrite (alter_Some _ _ _ (set_access true e))
    by (by apply list_lookup_insert_eq).
  rewrite list_insert_insert_eq, insert_same; [by destruct v|].
  rewrite Hi. destruct e; cbn in *. by subst.
Qed.

Lemma dump_step_free v i e :
  storage v !! i = Some e → access e = false → inUse e = false →
  dump_step field_3 field_1 i v
  = mkRun (Thrown (out_of_range "no such element")) v
          [ev_lock (slot i); ev_unlock (slot i)].
Proof.
  intros Hi Ha Hu. unfold dump_step.
  by rewrite (bind_throw _ _ _ _ _ _ (view_run_free v i e Hi Ha Hu)).
Qed.

Lemma for_dump_step v n : ∀ i k,
  slots_unlocked v →
  i ≤ k → k ≤ i + n → i + n ≤ length (storage v) →
  (∀ j e, i ≤ j → j < k → storage v !! j = Some e → inUse e = true) →
  (k < i + n → ∃ e, storage v !! k = Some e ∧ inUse e = false) →
  for_ (seq i n) (dump_step field_3 field_1) v
  = mkRun (if decide (k = i + n) then Returned ()
           else Thrown (out_of_range "no such element"))
          v
          ((seq i (k - i) ≫= visit field_3 field_1 v)
           ++ if decide (k = i + n) then []
              else [ev_lock (slot k); ev_unlock (slot k)]).
Proof.
  induction n as [|n IH]; intros i k Hunl Hik Hkn Hlen Hused Hfree.
  - assert (k = i) as -> by lia. rewrite !decide_True by lia.
    by rewrite Nat.sub_diag.
  - cbn [seq for_].
    destruct (lookup_lt_is_Some_2 (storage v) i) as [ei Hi]; [lia|].
    assert (access ei = false) as Ha
      by (eapply (proj1 (Forall_lookup _ _) Hunl); done).
    destruct (decide (k = i)) as [->|Hne].
    + destruct Hfree as (e & He & Hu); [lia|].
      assert (e = ei) as -> by congruence.
      rewrite (bind_throw _ _ _ _ _ _ (dump_step_free v i ei Hi Ha Hu)).
      rewrite !decide_False by lia. by rewrite Nat.sub_diag.
    + assert (inUse ei = true) as Hu by (apply (Hused i); [lia..|done]).
      rewrite (bind_run _ _ _ _ _ _ (dump_step_used v i ei Hi Ha Hu)).
      assert (∀ j e, S i ≤ j → j < k → storage v !! j = Some e →
                     inUse e = true) as Hused'
        by (intros j e ? ? ?; apply (Hused j); lia || done).
      assert (k < S i + n → ∃ e, storage v !! k = Some e ∧ inUse e = false)
        as Hfree' by (intros ?; apply Hfree; lia).
      rewrite (IH (S i) k Hunl ltac:(lia) ltac:(lia) ltac:(lia) Hused' Hfree').
      cbn [res final events].
      replace (k - i) with (S (k - S i)) by lia. cbn [seq].
      replace (S i + n) with (i + S n) by lia.
      by rewrite bind_cons, app_assoc.
Qed.

(** C6, as the code has it: with no slot mutex held, [dump] visits the
    slots 0, 1, ... in order, printing each one in use, up to the first
    slot that is not in use; there the "no such element" failure of [view]
    leaves [dump] and no later slot is visited.  [dump] returns exactly
    when every slot is in use.  The pool state is the one before the call
    either way. *)
Theorem dump_stops_at_first_free v :
  wf v → slots_unlocked v →
  let k := find_if_not inUse (storage v) in
  res (dump field_3 field_1 v)
  = (if decide (k = maxElementNumber) then Returned ()
     else Thrown (out_of_range "no such element")) ∧
  final (dump field_3 field_1 v) = v ∧
  events (dump field_3 field_1 v)
  = ((seq 0 k ≫= visit field_3 field_1 v)
     ++ if decide (k = maxElementNumber) then []
        else [ev_lock (slot k); ev_unlock (slot k)])%list.
Proof.
  intros Hwf Hunl k.
  unfold dump.
  pose proof (find_if_le (λ e, negb (inUse e)) (storage v)) as Hle.
  fold (find_if_not inUse (storage v)) in Hle. fold k in Hle.
  rewrite (for_dump_step v maxElementNumber 0 k); try done; try lia.
  - by rewrite Nat.sub_0_r.
  - by rewrite <-Hwf.
  - by rewrite Hwf.
  - intros j e _ Hj He. apply negb_false_iff.
    by apply (find_if_before (λ e, negb (inUse e)) (storage v) j e).
  - intros Hlt. rewrite <-Hwf in Hlt.
    destruct (find_if_found _ _ Hlt) as (e & He & Hu).
    exists e. split; [done|]. by apply negb_true_iff.
Qed.

End Properties.


(** * The operations on concrete pools *)

Lemma sample_wf : wf sample.
Proof. reflexivity. Qed.

Lemma sample_unlocked : slots_unlocked sample.
Proof.
  unfold slots_unlocked, sample. cbn [storage].
  apply Forall_app. split; [by repeat constructor|].
  by apply Forall_replicate.
Qed.

Lemma sample_lookup_unlocked k e :
  storage sample !! k = Some e → access e = false.
Proof. intros Hk. by apply (Forall_lookup_1 _ _ _ _ sample_unlocked Hk). Qed.

Lemma allocate_takes_first_free_witness :
  ∃ i e,
    storage sample !! i = Some e ∧ inUse e = false ∧
    (∀ j e', j < i → storage sample !! j = Some e' → inUse e' = true) ∧
    res (allocate sample) = Returned (mkView i) ∧
    storage (final (allocate sample)) !! i
    = Some (mkElement (data e) true true) ∧
    (∀ j, j ≠ i → storage (final (allocate sample)) !! j = storage sample !! j) ∧
    data <$> storage (final (allocate sample)) = data <$> storage sample.
Proof.
  apply (allocate_takes_first_free sample).
  - reflexivity.
  - exists 1, (mkElement (mkData 2 "2_1") false false). split; reflexivity.
  - intros k e Hk _. exact (sample_lookup_unlocked k e Hk).
Defined.

Lemma allocate_capacity_witness :
  (res (allocate full) = Thrown (out_of_range "no empty element found") ∧
   final (allocate full) = full) ∧
  (let r := allocate_times maxElementNumber (Vault_init Data_init) in
   res r = Returned (mkView <$> seq 0 maxElementNumber) ∧
   storage (final r) = set_inUse true <$> storage (Vault_init Data_init) ∧
   res (allocate (final r)) = Thrown (out_of_range "no empty element found") ∧
   final (allocate (final r)) = final r).
Proof.
  split.
  - apply (proj1 allocate_capacity full).
    + reflexivity.
    + by apply Forall_replicate.
  - apply (proj2 allocate_capacity (Vault_init Data_init)).
    + unfold wf. cbn. apply length_replicate.
    + reflexivity.
    + by apply Forall_replicate.
    + by apply Forall_replicate.
Defined.

Lemma deallocate_index_witness :
  (∃ e, storage sample !! 2 = Some e ∧
        res (deallocate 2 sample) = Returned (inUse e) ∧
        final (deallocate 2 sample)
        = mkVault (<[2 := set_inUse false e]> (storage sample))
                  (Vault_access sample) ∧
        inUse <$> storage (final (deallocate 2 sample)) !! 2 = Some false ∧
        (inUse e = false → final (deallocate 2 sample) = sample)) ∧
  (∃ vw v1 v2 v3,
     allocate sample = mkRun (Returned vw) v1 (events (allocate sample)) ∧
     final (ElementView_dtor vw v1) = v2 ∧
     res (deallocate (ref vw) v2) = Returned true ∧
     final (deallocate (ref vw) v2) = v3 ∧
     res (deallocate (ref vw) v3) = Returned false ∧
     final (deallocate (ref vw) v3) = v3) ∧
  (res (deallocate 1024 sample)
   = Thrown (mkException std_out_of_range (what_array_at 1024 maxElementNumber)) ∧
   final (deallocate 1024 sample) = sample).
Proof.
  split; [|split].
  - apply (proj1 deallocate_index sample 2).
    + exact sample_wf.
    + unfold maxElementNumber. lia.
    + reflexivity.
  - apply (proj1 (proj2 deallocate_index) sample).
    + reflexivity.
    + exists 1, (mkElement (mkData 2 "2_1") false false). split; reflexivity.
    + intros k e Hk _. exact (sample_lookup_unlocked k e Hk).
  - apply (proj2 (proj2 deallocate_index) sample 1024).
    + exact sample_wf.
    + unfold maxElementNumber. lia.
Defined.

Lemma deallocate_first_match_witness :
  (∃ i e,
     storage sample !! i = Some e ∧ inUse e = true ∧
     prefix_pred (data e) = true ∧
     (∀ j e', j < i → storage sample !! j = Some e' →
              inUse e' = false ∨ prefix_pred (data e') = false) ∧
     res (deallocate_pred prefix_pred sample) = Returned true ∧
     final (deallocate_pred prefix_pred sample)
     = mkVault (<[i := set_inUse false e]> (storage sample)) false) ∧
  (res (deallocate_pred prefix_pred (Vault_init Data_init)) = Returned false ∧
   final (deallocate_pred prefix_pred (Vault_init Data_init))
   = Vault_init Data_init).
Proof.
  split.
  - apply (proj1 deallocate_first_match sample prefix_pred).
    + reflexivity.
    + exists 2, (mkElement (mkData 3 "2_2") false true).
      split_and!; reflexivity.
    + intros k e Hk _ _. exact (sample_lookup_unlocked k e Hk).
  - apply (proj2 deallocate_first_match (Vault_init Data_init) prefix_pred).
    + reflexivity.
    + intros k e Hk. left. cbn in Hk.
      apply lookup_replicate in Hk as [-> _]. reflexivity.
Defined.

Lemma view_outcomes_witness :
  view 1024 sample
  = mkRun (Thrown (mkException std_out_of_range
                     (what_array_at 1024 maxElementNumber))) sample [] ∧
  view 1 sample
  = mkRun (Thrown (mkException std_out_of_range
                     (what_literal "no such element"))) sample
          [ev_lock (slot 1); ev_unlock (slot 1)] ∧
  (res (view 2 sample) = Returned (mkView 2) ∧
   final (view 2 sample)
   = mkVault (<[2 := set_access true (mkElement (mkData 3 "2_2") false true)]>
                (storage sample)) (Vault_access sample) ∧
   held (slot 2) (final (view 2 sample)) = true).
Proof.
  split; [|split].
  - apply (proj1 view_outcomes sample 1024).
    + exact sample_wf.
    + unfold maxElementNumber. lia.
  - apply (proj1 (proj2 view_outcomes) sample 1
             (mkElement (mkData 2 "2_1") false false)).
    + exact sample_wf.
    + unfold maxElementNumber. lia.
    + reflexivity.
    + reflexivity.
    + reflexivity.
  - apply (proj2 (proj2 view_outcomes) sample 2
             (mkElement (mkData 3 "2_2") false true)).
    + exact sample_wf.
    + unfold maxElementNumber. lia.
    + reflexivity.
    + reflexivity.
    + reflexivity.
Defined.

(** C5, counterexample: on [sample] the failure of [view] for the index
    1024 and its failure for the free slot 1 have the same exception type. *)
Lemma view_failures_share_type :
  res (view 1024 sample)
  = Thrown (mkException std_out_of_range (what_array_at 1024 1024)) ∧
  res (view 1 sample)
  = Thrown (mkException std_out_of_range (what_literal "no such element")) ∧
  etype (mkException std_out_of_range (what_literal "no such element"))
  = etype (mkException std_out_of_range (what_array_at 1024 1024)).
Proof. split_and!; vm_compute; reflexivity. Qed.

Lemma dump_stops_at_first_free_witness :
  let k := find_if_not inUse (storage sample) in
  res (dump field_3 field_1 sample)
  = (if decide (k = maxElementNumber) then Returned ()
     else Thrown (out_of_range "no such element")) ∧
  final (dump field_3 field_1 sample) = sample ∧
  events (dump field_3 field_1 sample)
  = ((seq 0 k ≫= visit field_3 field_1 sample)
     ++ if decide (k = maxElementNumber) then []
        else [ev_lock (slot k); ev_unlock (slot k)])%list.
Proof.
  apply (dump_stops_at_first_free field_3 field_1 sample).
  - exact sample_wf.
  - exact sample_unlocked.
Defined.

(** C6, counterexample: on [sample], where slot 1 is free and slot 2 is in
    use, [dump] prints slot 0, throws at slot 1 and never reaches slot 2. *)
Lemma dump_throws_at_free_slot :
  res (dump field_3 field_1 sample)
  = Thrown (out_of_range "no such element") ∧
  events (dump field_3 field_1 sample)
  = [ev_lock (slot 0); ev_print 0 "1_1" 1; ev_unlock (slot 0);
     ev_lock (slot 1); ev_unlock (slot 1)] ∧
  inUse <$> storage sample !! 2 = Some true.
Proof. split_and!; vm_compute; reflexivity. Qed.

Lemma deallocate_then_view_witness :
  ∃ b v',
    deallocate 2 sample = mkRun (Returned b) v' (events (deallocate 2 sample)) ∧
    res (view 2 v') = Thrown (out_of_range "no such element") ∧
    res ((deallocate 2 ;; view 2) sample)
    = Thrown (out_of_range "no such element").
Proof.
  apply (deallocate_then_view sample 2).
  - exact sample_wf.
  - unfold maxElementNumber. lia.
  - reflexivity.
Defined.

Lemma allocate_lock_order_witness :
  events (allocate sample)
  = [ev_lock directory; ev_store 1 true; ev_lock (slot 1); ev_unlock directory] ∧
  before (ev_store 1 true) (ev_lock (slot 1)) (events (allocate sample)) = true ∧
  before (ev_lock (slot 1)) (ev_unlock directory) (events (allocate sample))
  = true ∧
  before (ev_unlock directory) (ev_lock (slot 1)) (events (allocate sample))
  = false ∧
  takes_under directory (slot 1) false (events (allocate sample)) = true ∧
  holds directory (events (allocate sample)) = false ∧
  holds (slot 1) (events (allocate sample)) = true ∧
  res (allocate sample) = Returned (mkView 1) ∧
  held directory (final (allocate sample)) = false ∧
  held (slot 1) (final (allocate sample)) = true.
Proof.
  apply (allocate_lock_order sample 1 (mkElement (mkData 2 "2_1") false false)).
  - reflexivity.
  - reflexivity.
  - reflexivity.
  - reflexivity.
  - intros j e' Hj. destruct j as [|j]; [|lia]. cbn. by intros [= <-].
Defined.

(** C9, counterexample: on [sample] the successful [allocate] does not
    release the directory mutex before it takes the mutex of slot 1: it
    takes the slot mutex while it holds the directory mutex. *)
Lemma allocate_locks_slot_under_directory :
  res (allocate sample) = Returned (mkView 1) ∧
  events (allocate sample)
  = [ev_lock directory; ev_store 1 true; ev_lock (slot 1); ev_unlock directory] ∧
  before (ev_unlock directory) (ev_lock (slot 1)) (events (allocate sample))
  = false ∧
  takes_under directory (slot 1) false (events (allocate sample)) = true.
Proof. split_and!; vm_compute; reflexivity. Qed.

Lemma deallocate_frame_witness :
  (data <$> storage (final (deallocate 2 sample)) = data <$> storage sample) ∧
  (data <$> storage (final (deallocate_pred prefix_pred sample))
   = data <$> storage sample) ∧
  (0 ≠ find_if (λ e, inUse e && prefix_pred (data e)) (storage sample) ∧
   storage (final (deallocate_pred prefix_pred sample)) !! 0
   = storage sample !! 0).
Proof.
  split; [|split; [|split]].
  - apply (proj1 (deallocate_frame sample)).
  - apply (proj1 (proj2 (deallocate_frame sample))).
  - vm_compute. lia.
  - apply (proj2 (proj2 (deallocate_frame sample)) prefix_pred 0).
    vm_compute. lia.
Defined.

(** * Further properties of the operations *)

(** Unfolds an operation down to its primitive steps and goes through
    them with the given facts about the state. *)
Tactic Notation "step_ops" "using" tactic3(tac) :=
  unfold view, deallocate, deallocate_pred, allocate, ElementView_ctor,
    ElementView_dtor, storage_at, lock, unlock, exchange, store, gets, scope,
    unwind, throw, mbind, M_bind, bind, mret, M_ret, ret, held, set_held;
  cbn; repeat (progress (tac; cbn)).

Section Outcomes.

Context {ElementData : Type}.
Variables (field_3 : ElementData → string) (field_1 : ElementData → Z).
Implicit Types (v : Vault ElementData) (l : list (Element ElementData)).
Implicit Types (e : Element ElementData) (p : Element ElementData → bool).

(** ** Every way a call can end *)

Lemma allocate_run_directory_held v :
  Vault_access v = true → allocate v = mkRun (Blocked directory) v [].
Proof. intros Hd. by step_ops using (rewrite ?Hd). Qed.

Lemma allocate_run_slot_held v i e :
  Vault_access v = false →
  storage v !! i = Some e → inUse e = false → access e = true →
  (∀ j e', j < i → storage v !! j = Some e' → inUse e' = true) →
  allocate v
  = mkRun (Blocked (slot i))
          (mkVault (<[i := set_inUse true e]> (storage v)) true)
          [ev_lock directory; ev_store i true].
Proof.
  intros Hdir Hi Hfree Hacc Hlt.
  assert (find_if_not inUse (storage v) = i) as Hfind.
  { apply find_if_first with e; [done|by rewrite Hfree|].
    intros j e' ? ?. by rewrite (Hlt j e'). }
  pose proof (lookup_lt_Some _ _ _ Hi) as Hlen. unfold find_if_not in Hfind.
  step_ops using (rewrite ?list_lookup_alter_eq, ?Hdir, ?Hfind, ?Hi, ?Hacc,
                    ?decide_False by lia).
  by rewrite (alter_Some _ _ _ e).
Qed.

Lemma view_cases v idx :
  (storage v !! idx = None ∧
   view idx v
   = mkRun (Thrown (mkException std_out_of_range
                      (what_array_at idx (length (storage v))))) v []) ∨
  (∃ e, storage v !! idx = Some e ∧ access e = true ∧
        view idx v = mkRun (Blocked (slot idx)) v []) ∨
  (∃ e, storage v !! idx = Some e ∧ access e = false ∧ inUse e = false ∧
        view idx v
        = mkRun (Thrown (out_of_range "no such element")) v
                [ev_lock (slot idx); ev_unlock (slot idx)]) ∨
  (∃ e, storage v !! idx = Some e ∧ access e = false ∧ inUse e = true ∧
        view idx v
        = mkRun (Returned (mkView idx))
                (mkVault (<[idx := set_access true e]> (storage v))
                         (Vault_access v))
                [ev_lock (slot idx)]).
Proof.
  destruct (storage v !! idx) as [e|] eqn:Hi.
  - right. destruct (access e) eqn:Ha.
    + left. exists e. eauto using view_run_blocked.
    + right. destruct (inUse e) eqn:Hu.
      * right. exists e. eauto using view_run_used.
      * left. exists e. eauto using view_run_free.
  - left. eauto using view_run_out.
Qed.

Lemma deallocate_cases v idx :
  (storage v !! idx = None ∧
   deallocate idx v
   = mkRun (Thrown (mkException std_out_of_range
                      (what_array_at idx (length (storage v))))) v []) ∨
  (∃ e, storage v !! idx = Some e ∧ access e = true ∧
        deallocate idx v = mkRun (Blocked (slot idx)) v []) ∨
  (∃ e, storage v !! idx = Some e ∧ access e = false ∧
        deallocate idx v
        = mkRun (Returned (inUse e))
                (mkVault (<[idx := set_inUse false e]> (storage v))
                         (Vault_access v))
                [ev_lock (slot idx); ev_exchange idx false;
                 ev_unlock (slot idx)]).
Proof.
  destruct (storage v !! idx) as [e|] eqn:Hi.
  - right. destruct (access e) eqn:Ha.
    + left. exists e. eauto using deallocate_run_blocked.
    + right. exists e. eauto using deallocate_run.
  - left. eauto using deallocate_run_out.
Qed.

Lemma allocate_cases v :
  (Vault_access v = true ∧ allocate v = mkRun (Blocked directory) v []) ∨
  (Vault_access v = false ∧ Forall (λ e, inUse e = true) (storage v) ∧
   allocate v
   = mkRun (Thrown (out_of_range "no empty element found")) v
           [ev_lock directory; ev_unlock directory]) ∨
  (∃ i e, Vault_access v = false ∧
          storage v !! i = Some e ∧ inUse e = false ∧ access e = true ∧
          allocate v
          = mkRun (Blocked (slot i))
                  (mkVault (<[i := set_inUse true e]> (storage v)) true)
                  [ev_lock directory; ev_store i true]) ∨
  (∃ i e, Vault_access v = false ∧
          storage v !! i = Some e ∧ inUse e = false ∧ access e = false ∧
          (∀ j e', j < i → storage v !! j = Some e' → inUse e' = true) ∧
          allocate v
          = mkRun (Returned (mkView i))
                  (mkVault (<[i := mkElement (data e) true true]> (storage v))
                           false)
                  [ev_lock directory; ev_store i true; ev_lock (slot i);
                   ev_unlock directory]).
Proof.
  destruct (Vault_access v) eqn:Hd.
  { left. eauto using allocate_run_directory_held. }
  right.
  destruct (decide (Forall (λ e, inUse e = true) (storage v))) as [Hall|Hex].
  { left. eauto using allocate_full_run. }
  right.
  destruct (first_free_slot v) as (i & e & Hi & Hu & Hbefore).
  { apply not_Forall_Exists in Hex; [|apply _].
    apply Exists_exists in Hex as (e & He & Hne).
    apply list_elem_of_lookup_1 in He as [k Hk].
    exists k, e. split; [done|]. cbn in Hne. by destruct (inUse e). }
  destruct (access e) eqn:Ha.
  - left. exists i, e. eauto 10 using allocate_run_slot_held.
  - right. exists i, e. eauto 10 using allocate_run.
Qed.

Lemma deallocate_pred_cases v pred :
  (Vault_access v = true ∧
   deallocate_pred pred v = mkRun (Blocked directory) v []) ∨
  (Vault_access v = false ∧
   Forall (λ e, matches pred e = false) (storage v) ∧
   deallocate_pred pred v
   = mkRun (Returned false) v [ev_lock directory; ev_unlock directory]) ∨
  (∃ i e, Vault_access v = false ∧
          find_if (matches pred) (storage v) = i ∧
          storage v !! i = Some e ∧ matches pred e = true ∧ access e = true ∧
          deallocate_pred pred v
          = mkRun (Blocked (slot i)) (mkVault (storage v) true)
                  [ev_lock directory]) ∨
  (∃ i e, Vault_access v = false ∧
          find_if (matches pred) (storage v) = i ∧
          storage v !! i = Some e ∧ matches pred e = true ∧ access e = false ∧
          deallocate_pred pred v
          = mkRun (Returned true)
                  (mkVault (<[i := set_inUse false e]> (storage v)) false)
                  [ev_lock directory; ev_lock (slot i); ev_unlock directory;
                   ev_exchange i false; ev_unlock (slot i)]).
Proof.
  destruct (Vault_access v) eqn:Hd.
  { left. eauto using deallocate_pred_run_blocked. }
  right.
  remember (find_if (matches pred) (storage v)) as i eqn:Ei.
  destruct (decide (i = length (storage v))) as [Hend|Hne].
  { left. split; [done|]. split.
    - apply find_if_end_iff. congruence.
    - apply deallocate_pred_run_none; [done|]. unfold matches in Ei. congruence. }
  right.
  pose proof (find_if_le (matches pred) (storage v)) as Hle.
  assert (find_if (matches pred) (storage v) < length (storage v)) as Hlt by lia.
  destruct (find_if_found _ _ Hlt) as (e & Hi & Hm). rewrite <-Ei in Hi.
  assert (inUse e = true) as Hu by (by apply andb_true_iff in Hm as [? _]).
  destruct (access e) eqn:Ha.
  - left. exists i, e. split_and!; try done.
    by apply deallocate_pred_run_slot_blocked with e.
  - right. exists i, e. split_and!; try done.
    rewrite <-Hu. by apply deallocate_pred_run.
Qed.

(** ** dump in any state *)

Lemma dump_step_completes v i :
  (∀ m, res (dump_step field_3 field_1 i v) ≠ Blocked m) →
  final (dump_step field_3 field_1 i v) = v.
Proof.
  intros Hnb.
  destruct (view_cases v i) as [[Hi Hv]|[(e & Hi & Ha & Hv)|[(e & Hi & Ha & Hu & Hv)
    |(e & Hi & Ha & Hu & Hv)]]].
  - unfold dump_step. by rewrite (bind_throw _ _ _ _ _ _ Hv).
  - exfalso. apply (Hnb (slot i)). unfold dump_step, mbind, M_bind, bind.
    by rewrite Hv.
  - by rewrite (dump_step_free field_3 field_1 v i e).
  - by rewrite (dump_step_used field_3 field_1 v i e).
Qed.

Lemma for_dump_completes ixs v :
  (∀ m, res (for_ ixs (dump_step field_3 field_1) v) ≠ Blocked m) →
  final (for_ ixs (dump_step field_3 field_1) v) = v.
Proof.
  induction ixs as [|i ixs IH]; [done|]. cbn [for_].
  pose proof (dump_step_completes v i) as Hstep.
  unfold mbind, M_bind, bind.
  destruct (dump_step field_3 field_1 i v) as [[[]|x|m] v1 evs1]; cbn in *.
  - rewrite Hstep by done.
    destruct (for_ ixs (dump_step field_3 field_1) v) as [r v2 evs2] eqn:Hrest.
    cbn. intros Hnb. specialize (IH Hnb). done.
  - intros _. by apply Hstep.
  - intros Hnb. by destruct (Hnb m).
Qed.


(** X2: an operation that throws leaves the whole pool state, flags,
    payloads and mutexes, exactly as it was before the call. *)
Theorem throw_leaves_state v :
  (∀ idx x, res (view idx v) = Thrown x → final (view idx v) = v) ∧
  (∀ x, res (allocate v) = Thrown x → final (allocate v) = v) ∧
  (∀ idx x, res (deallocate idx v) = Thrown x → final (deallocate idx v) = v) ∧
  (∀ x, res (dump field_3 field_1 v) = Thrown x →
        final (dump field_3 field_1 v) = v).
Proof.
  split_and!.
  - intros idx x.
    destruct (view_cases v idx) as [[Hi ->]|[(e & Hi & Ha & ->)
      |[(e & Hi & Ha & Hu & ->)|(e & Hi & Ha & Hu & ->)]]]; by cbn.
  - intros x.
    destruct (allocate_cases v) as [[Hd ->]|[(Hd & Hall & ->)
      |[(i & e & Hd & Hi & Hu & Ha & ->)|(i & e & Hd & Hi & Hu & Ha & _ & ->)]]];
      by cbn.
  - intros idx x.
    destruct (deallocate_cases v idx) as [[Hi ->]|[(e & Hi & Ha & ->)
      |(e & Hi & Ha & ->)]]; by cbn.
  - intros x Hx. unfold dump in *. apply for_dump_completes.
    intros m. by rewrite Hx.
Qed.

(** X3: no completed call leaks a mutex.  When [view] or [allocate]
    returns a view, the mutexes held are those held before plus the
    mutex of the view's slot, which was free; when [deallocate(idx)],
    [deallocate(pred)] or [dump] returns, the mutexes held are those held
    before. *)
Theorem locks_balanced v :
  (∀ idx vw, res (view idx v) = Returned vw →
     vw = mkView idx ∧ held (slot idx) v = false ∧
     mutexes (final (view idx v)) = mutexes (set_held (slot idx) true v)) ∧
  (∀ vw, res (allocate v) = Returned vw →
     held (slot (ref vw)) v = false ∧
     mutexes (final (allocate v)) = mutexes (set_held (slot (ref vw)) true v)) ∧
  (∀ idx b, res (deallocate idx v) = Returned b →
     mutexes (final (deallocate idx v)) = mutexes v) ∧
  (∀ pred b, res (deallocate_pred pred v) = Returned b →
     mutexes (final (deallocate_pred pred v)) = mutexes v) ∧
  (res (dump field_3 field_1 v) = Returned () →
   final (dump field_3 field_1 v) = v).
Proof.
  split_and!.
  - intros idx vw.
    destruct (view_cases v idx) as [[Hi ->]|[(e & Hi & Ha & ->)
      |[(e & Hi & Ha & Hu & ->)|(e & Hi & Ha & Hu & ->)]]]; cbn; try done.
    intros [= <-]. rewrite Hi. cbn. split_and!; try done.
    unfold mutexes. cbn. by rewrite (alter_Some _ _ _ e).
  - intros vw.
    destruct (allocate_cases v) as [[Hd ->]|[(Hd & Hall & ->)
      |[(i & e & Hd & Hi & Hu & Ha & ->)|(i & e & Hd & Hi & Hu & Ha & _ & ->)]]];
      cbn; try done.
    intros [= <-]. cbn. rewrite Hi. cbn. split; [done|].
    unfold mutexes. cbn. rewrite Hd. f_equal.
    rewrite (alter_Some _ _ _ e) by done. by rewrite !list_fmap_insert.
  - intros idx b.
    destruct (deallocate_cases v idx) as [[Hi ->]|[(e & Hi & Ha & ->)
      |(e & Hi & Ha & ->)]]; cbn; try done.
    intros _. unfold mutexes. cbn. f_equal.
    rewrite list_fmap_insert. cbn. apply list_insert_id.
    by rewrite list_lookup_fmap, Hi.
  - intros pred b.
    destruct (deallocate_pred_cases v pred) as [[Hd ->]|[(Hd & Hall & ->)
      |[(i & e & Hd & _ & Hi & Hm & Ha & ->)
       |(i & e & Hd & _ & Hi & Hm & Ha & ->)]]]; cbn; try done.
    intros _. unfold mutexes. cbn. rewrite Hd. f_equal.
    rewrite list_fmap_insert. cbn. apply list_insert_id.
    by rewrite list_lookup_fmap, Hi.
  - intros Hr. unfold dump in *. apply for_dump_completes.
    intros m. by rewrite Hr.
Qed.

End Outcomes.

Section Views.

Context {ElementData : Type}.
Implicit Types (v : Vault ElementData) (l : list (Element ElementData)).
Implicit Types (e : Element ElementData).

Lemma insert_set_access_back l i e :
  l !! i = Some e → access e = false →
  <[i := set_access false (set_access true e)]> l = l.
Proof.
  intros Hi Ha. apply list_insert_id. rewrite Hi.
  destruct e; cbn in *. by subst.
Qed.

(** X4: while a view of a slot is open, [view] and [deallocate] of that
    slot wait on its mutex and change nothing; when the view ends its
    life the pool state is exactly the one before the view was opened
    (for a view from [view]), and the slot can be viewed and freed again
    (for a view from [allocate]). *)
Theorem open_view_excludes :
  (∀ v idx e,
     storage v !! idx = Some e → access e = false → inUse e = true →
     ∃ v1,
       view idx v = mkRun (Returned (mkView idx)) v1 [ev_lock (slot idx)] ∧
       view idx v1 = mkRun (Blocked (slot idx)) v1 [] ∧
       deallocate idx v1 = mkRun (Blocked (slot idx)) v1 [] ∧
       final (ElementView_dtor (mkView idx) v1) = v) ∧
  (∀ v i e,
     Vault_access v = false →
     storage v !! i = Some e → inUse e = false → access e = false →
     (∀ j e', j < i → storage v !! j = Some e' → inUse e' = true) →
     ∃ v1 v2,
       res (allocate v) = Returned (mkView i) ∧ final (allocate v) = v1 ∧
       view i v1 = mkRun (Blocked (slot i)) v1 [] ∧
       deallocate i v1 = mkRun (Blocked (slot i)) v1 [] ∧
       final (ElementView_dtor (mkView i) v1) = v2 ∧
       res (view i v2) = Returned (mkView i) ∧
       res (deallocate i v2) = Returned true).
Proof.
  split.
  - intros v idx e Hi Ha Hu.
    pose proof (lookup_lt_Some _ _ _ Hi) as Hlt.
    eexists. split; [by apply (view_run_used v idx e)|].
    assert (<[idx := set_access true e]> (storage v) !! idx
            = Some (set_access true e)) as Hi'
      by (by apply list_lookup_insert_eq).
    split_and!.
    + by apply (view_run_blocked _ idx (set_access true e)).
    + by apply (deallocate_run_blocked _ idx (set_access true e)).
    + unfold ElementView_dtor, unlock. cbn.
      rewrite (alter_Some _ _ _ (set_access true e)) by done.
      rewrite list_insert_insert_eq, insert_set_access_back by done.
      by destruct v.
  - intros v i e Hd Hi Hu Ha Hbefore.
    pose proof (lookup_lt_Some _ _ _ Hi) as Hlt.
    rewrite (allocate_run v i e) by done. cbn.
    assert (<[i := mkElement (data e) true true]> (storage v) !! i
            = Some (mkElement (data e) true true)) as Hi'
      by (by apply list_lookup_insert_eq).
    eexists _, _. split; [done|]. split; [done|]. split_and!.
    + by apply (view_run_blocked _ i (mkElement (data e) true true)).
    + by apply (deallocate_run_blocked _ i (mkElement (data e) true true)).
    + done.
    + unfold ElementView_dtor, unlock. cbn.
      rewrite (alter_Some _ _ _ (mkElement (data e) true true)) by done.
      rewrite list_insert_insert_eq.
      rewrite (view_run_used _ i (mkElement (data e) false true));
        [done| |done..].
      by apply list_lookup_insert_eq.
    + unfold ElementView_dtor, unlock. cbn.
      rewrite (alter_Some _ _ _ (mkElement (data e) true true)) by done.
      rewrite list_insert_insert_eq.
      rewrite (deallocate_run _ i (mkElement (data e) false true));
        [done| |done].
      by apply list_lookup_insert_eq.
Qed.

(** X5: changing the payload through a view ([view(idx)], a write through
    [operator()], the end of the view): for a slot in use whose mutex is
    free the sequence returns, the slot holds the new payload, its flag
    and mutex and every other slot are as before, and a later view reads
    the new payload. *)
Theorem update_through_view v idx e (f : ElementData → ElementData) :
  storage v !! idx = Some e → access e = false → inUse e = true →
  let update :=
    view idx ≫= λ vw, scope (ElementView_modify vw f) (ElementView_dtor vw) in
  res (update v) = Returned () ∧
  final (update v)
  = mkVault (<[idx := set_data (f (data e)) e]> (storage v)) (Vault_access v) ∧
  res (view idx (final (update v))) = Returned (mkView idx) ∧
  ElementView_get (mkView idx) (final (view idx (final (update v))))
  = Some (f (data e)).
Proof.
  intros Hi Ha Hu update.
  pose proof (lookup_lt_Some _ _ _ Hi) as Hlt.
  assert (update v
          = mkRun (Returned ())
              (mkVault (<[idx := set_data (f (data e)) e]> (storage v))
                       (Vault_access v))
              [ev_lock (slot idx); ev_unlock (slot idx)]) as Hrun.
  { unfold update.
    rewrite (bind_run _ _ _ _ _ _ (view_run_used v idx e Hi Ha Hu)).
    unfold scope, ElementView_modify, ElementView_dtor, unlock. cbn.
    rewrite (alter_Some (λ e0, set_data (f (data e0)) e0) _ _
               (set_access true e))
      by (by apply list_lookup_insert_eq).
    rewrite list_insert_insert_eq.
    rewrite (alter_Some (set_access false) _ _
               (set_data (f (data (set_access true e))) (set_access true e)))
      by (by apply list_lookup_insert_eq).
    rewrite list_insert_insert_eq. do 3 f_equal.
    destruct e; cbn in *. by subst. }
  rewrite Hrun. cbn [res final]. split; [done|]. split; [done|].
  rewrite (view_run_used _ idx (set_data (f (data e)) e));
    [|by apply list_lookup_insert_eq|done..].
  cbn. split; [done|]. unfold ElementView_get. cbn.
  rewrite list_insert_insert_eq.
  by rewrite list_lookup_insert_eq.
Qed.

(** X6: freeing a slot and allocating again hands the same slot back when
    no slot of lower index is free: [deallocate(idx)] followed by
    [allocate()] returns a view of slot [idx], whose payload is the one
    left by the previous use, and ends in the state that [view(idx)] would
    have given. *)
Theorem allocate_reuses_freed_slot v idx e :
  Vault_access v = false →
  storage v !! idx = Some e → access e = false → inUse e = true →
  (∀ j e', j < idx → storage v !! j = Some e' → inUse e' = true) →
  res ((deallocate idx ;; allocate) v) = Returned (mkView idx) ∧
  final ((deallocate idx ;; allocate) v) = final (view idx v) ∧
  ElementView_get (mkView idx) (final ((deallocate idx ;; allocate) v))
  = Some (data e).
Proof.
  intros Hd Hi Ha Hu Hbefore.
  pose proof (lookup_lt_Some _ _ _ Hi) as Hlt.
  rewrite (bind_run _ _ _ _ _ _ (deallocate_run v idx e Hi Ha)).
  rewrite (allocate_run _ idx (set_inUse false e)); cbn.
  - rewrite (view_run_used v idx e) by done. cbn.
    rewrite list_insert_insert_eq, Hd. split; [done|]. split.
    + do 2 f_equal. destruct e; cbn in *. by subst.
    + unfold ElementView_get. cbn. by rewrite list_lookup_insert_eq.
  - done.
  - by apply list_lookup_insert_eq.
  - done.
  - done.
  - intros j e' Hj. rewrite list_lookup_insert_ne by lia. by apply Hbefore.
Qed.

(** X7: when the mutex of the first free slot is held, [allocate] sets
    that slot's flag and then waits for the slot mutex while it still
    holds the directory mutex: in the state it waits in, the slot counts
    as in use, and [allocate] and [deallocate(pred)] both wait on the
    directory mutex. *)
Theorem allocate_waits_holding_directory v i e :
  Vault_access v = false →
  storage v !! i = Some e → inUse e = false → access e = true →
  (∀ j e', j < i → storage v !! j = Some e' → inUse e' = true) →
  ∃ v1,
    allocate v
    = mkRun (Blocked (slot i)) v1 [ev_lock directory; ev_store i true] ∧
    held directory v1 = true ∧
    inUse <$> storage v1 !! i = Some true ∧
    allocate v1 = mkRun (Blocked directory) v1 [] ∧
    (∀ pred, deallocate_pred pred v1 = mkRun (Blocked directory) v1 []).
Proof.
  intros Hd Hi Hu Ha Hbefore.
  pose proof (lookup_lt_Some _ _ _ Hi) as Hlt.
  eexists. split; [by apply (allocate_run_slot_held v i e)|].
  split_and!.
  - done.
  - cbn. by rewrite list_lookup_insert_eq.
  - by apply allocate_run_directory_held.
  - intros pred. by apply deallocate_pred_run_blocked.
Qed.

End Views.

Section Counting.

Context {ElementData : Type}.
Implicit Types (v : Vault ElementData) (l : list (Element ElementData)).
Implicit Types (e : Element ElementData) (p : Element ElementData → bool).

Lemma count_if_zero p l : count_if p l = 0 ↔ Forall (λ e, p e = false) l.
Proof.
  induction l as [|x l IH]; cbn; [by split; [constructor|]|].
  destruct (p x) eqn:Hx.
  - split; [done|]. intros H. apply Forall_cons in H as [? _]. congruence.
  - rewrite IH. split; [by constructor|]. by intros [_ ?]%Forall_cons.
Qed.

Lemma count_if_insert p l i e e' :
  l !! i = Some e →
  count_if p (<[i := e']> l) + (if p e then 1 else 0)
  = count_if p l + (if p e' then 1 else 0).
Proof.
  revert i. induction l as [|x l IH]; intros i Hi; [done|].
  destruct i as [|i]; simpl in *.
  - injection Hi as ->. destruct (p e), (p e'); lia.
  - specialize (IH i Hi). revert IH.
    destruct (p x), (p e), (p e'); intros; lia.
Qed.

Lemma flag_at_nil b v : flag_at b [] v = v.
Proof.
  unfold flag_at. destruct v as [l a]. cbn. f_equal.
  apply list_eq; intros j. rewrite list_lookup_imap.
  destruct (l !! j); [|done]. cbn. by rewrite decide_False by apply not_elem_of_nil.
Qed.

Lemma flag_at_cons b i ixs v e :
  storage v !! i = Some e →
  flag_at b (i :: ixs) v
  = flag_at b ixs (mkVault (<[i := set_inUse b e]> (storage v)) (Vault_access v)).
Proof.
  intros Hi. unfold flag_at. cbn. f_equal.
  apply list_eq; intros j. rewrite !list_lookup_imap.
  destruct (decide (i = j)) as [<-|Hne].
  - rewrite list_lookup_insert_eq by by eapply lookup_lt_Some.
    rewrite Hi. cbn. rewrite decide_True by by left.
    by destruct (decide (i ∈ ixs)).
  - rewrite list_lookup_insert_ne by done.
    destruct (storage v !! j); [|done]. cbn.
    destruct (decide (j ∈ i :: ixs)) as [Hin|Hnin], (decide (j ∈ ixs));
      try done.
    + apply elem_of_cons in Hin as [->|?]; done.
    + exfalso. apply Hnin. by right.
Qed.

Lemma flag_at_app b ixs1 ixs2 v :
  flag_at b ixs2 (flag_at b ixs1 v) = flag_at b (ixs1 ++ ixs2) v.
Proof.
  unfold flag_at. cbn. f_equal.
  apply list_eq; intros j. rewrite !list_lookup_imap.
  destruct (storage v !! j) as [e|]; [|done]. cbn. f_equal.
  destruct (decide (j ∈ ixs1)), (decide (j ∈ ixs2)),
    (decide (j ∈ (ixs1 ++ ixs2)%list)) as [Hin|Hnin]; try done;
    try (exfalso; apply Hnin; apply elem_of_app; by auto).
  apply elem_of_app in Hin as [?|?]; done.
Qed.

Lemma flag_at_all b ixs v :
  (∀ j, j < length (storage v) → j ∈ ixs) →
  flag_at b ixs v = mkVault (set_inUse b <$> storage v) (Vault_access v).
Proof.
  intros Hall. unfold flag_at. f_equal.
  apply list_eq; intros j. rewrite list_lookup_imap, list_lookup_fmap.
  destruct (storage v !! j) eqn:Hj; [|done]. cbn.
  by rewrite decide_True by (apply Hall; by eapply lookup_lt_Some).
Qed.

(** ** The free slots in order *)

Lemma elem_of_free_from i l j :
  j ∈ free_from i l ↔
  i ≤ j ∧ ∃ e, l !! (j - i) = Some e ∧ inUse e = false.
Proof.
  revert i. induction l as [|x l IH]; intros i; cbn.
  - split; [by intros ?%elem_of_nil|]. by intros (_ & e & ? & _).
  - assert (j ∈ free_from (S i) l ↔
            i < j ∧ ∃ e, (x :: l) !! (j - i) = Some e ∧ inUse e = false)
      as Htail.
    { rewrite IH. split.
      - intros (Hle & e & He & Hu). split; [lia|]. exists e.
        replace (j - i) with (S (j - S i)) by lia. done.
      - intros (Hlt & e & He & Hu). split; [lia|]. exists e.
        replace (j - i) with (S (j - S i)) in He by lia. done. }
    destruct (inUse x) eqn:Hx.
    + rewrite Htail. split.
      * intros (? & ?). split; [lia|done].
      * intros (Hle & e & He & Hu). split; [|by exists e].
        destruct (decide (i = j)) as [<-|]; [|lia].
        rewrite Nat.sub_diag in He. cbn in He. congruence.
    + rewrite elem_of_cons, Htail. split.
      * intros [->|(? & ?)]; [|split; [lia|done]].
        split; [done|]. exists x. by rewrite Nat.sub_diag.
      * intros (Hle & e & He & Hu).
        destruct (decide (j = i)) as [->|]; [by left|right].
        split; [lia|by exists e].
Qed.

Lemma elem_of_free_indices v j :
  j ∈ free_indices v ↔ ∃ e, storage v !! j = Some e ∧ inUse e = false.
Proof.
  unfold free_indices. rewrite elem_of_free_from, Nat.sub_0_r.
  split; [by intros [_ ?]|]. intros ?. split; [lia|done].
Qed.

Lemma NoDup_free_from i l : NoDup (free_from i l).
Proof.
  revert i. induction l as [|x l IH]; intros i; cbn; [constructor|].
  destruct (inUse x); [apply IH|].
  apply NoDup_cons. split; [|apply IH].
  rewrite elem_of_free_from. intros [? _]. lia.
Qed.

Lemma free_from_head i l k rest :
  free_from i l = k :: rest →
  i ≤ k ∧
  ∃ e, l !! (k - i) = Some e ∧ inUse e = false ∧
       (∀ j e', j < k - i → l !! j = Some e' → inUse e' = true) ∧
       free_from i (<[k - i := set_inUse true e]> l) = rest.
Proof.
  revert i. induction l as [|x l IH]; intros i; cbn; [done|].
  destruct (inUse x) eqn:Hx.
  - intros Hl. destruct (IH (S i) Hl) as (Hle & e & He & Hu & Hbefore & Hrest).
    split; [lia|]. exists e.
    replace (k - i) with (S (k - S i)) by lia. cbn.
    split_and!; try done.
    + intros [|j] e' Hj; cbn; [by intros [= <-]|].
      apply Hbefore. lia.
    + by rewrite Hx.
  - intros [= <- <-]. split; [done|]. exists x.
    rewrite Nat.sub_diag. cbn. split_and!; try done. intros j e' Hj. lia.
Qed.

Lemma free_from_nil i l :
  free_from i l = [] → Forall (λ e, inUse e = true) l.
Proof.
  revert i. induction l as [|x l IH]; intros i; cbn; [constructor|].
  destruct (inUse x) eqn:Hx; [|done]. intros Hl. constructor; eauto.
Qed.

End Counting.

Section LoopProperties.

Context {ElementData : Type}.
Implicit Types (v : Vault ElementData) (l : list (Element ElementData)).
Implicit Types (e : Element ElementData) (pred : ElementData → bool).

(** ** Repeated allocation in any state *)

Lemma free_from_increasing l : ∀ i a b x y,
  a < b → free_from i l !! a = Some x → free_from i l !! b = Some y → x < y.
Proof.
  induction l as [|z l IH]; intros i a b x y Hab; cbn; [done|].
  destruct (inUse z); [by apply IH|].
  destruct b as [|b]; [lia|]. cbn. destruct a as [|a]; cbn.
  - intros [= <-] Hy. apply list_elem_of_lookup_2 in Hy.
    apply elem_of_free_from in Hy as [? _]. lia.
  - apply IH. lia.
Qed.

Lemma allocate_then_close v i e :
  Vault_access v = false →
  storage v !! i = Some e → inUse e = false → access e = false →
  (∀ j e', j < i → storage v !! j = Some e' → inUse e' = true) →
  ∃ v1,
    allocate v
    = mkRun (Returned (mkView i)) v1
            [ev_lock directory; ev_store i true; ev_lock (slot i);
             ev_unlock directory] ∧
    ElementView_dtor (mkView i) v1
    = mkRun (Returned ())
            (mkVault (<[i := set_inUse true e]> (storage v)) false)
            [ev_unlock (slot i)].
Proof.
  intros Hd Hi Hu Ha Hbefore. pose proof (lookup_lt_Some _ _ _ Hi) as Hlt.
  eexists. split; [by apply (allocate_run v i e)|].
  unfold ElementView_dtor, unlock. cbn.
  rewrite (alter_Some _ _ _ (mkElement (data e) true true))
    by (by apply list_lookup_insert_eq).
  rewrite list_insert_insert_eq. do 3 f_equal.
  destruct e; cbn in *. by subst.
Qed.

Lemma allocate_times_run n : ∀ v,
  Vault_access v = false →
  (∀ k e, storage v !! k = Some e → inUse e = false → access e = false) →
  ∃ evs,
    allocate_times n v
    = mkRun (if decide (n ≤ length (free_indices v))
             then Returned (mkView <$> take n (free_indices v))
             else Thrown (out_of_range "no empty element found"))
            (flag_at true (take n (free_indices v)) v) evs.
Proof.
  induction n as [|n IH]; intros v Hd Hunl.
  { exists []. cbn [allocate_times]. rewrite decide_True by lia.
    by rewrite take_0, flag_at_nil. }
  cbn [allocate_times].
  destruct (free_indices v) as [|i rest] eqn:Hfr.
  - apply free_from_nil in Hfr.
    rewrite (bind_throw _ _ _ _ _ _ (allocate_full_run v Hd Hfr)).
    eexists. rewrite decide_False by (cbn; lia). by rewrite take_nil, flag_at_nil.
  - apply free_from_head in Hfr as (_ & e & Hi & Hu & Hbefore & Hrest).
    rewrite Nat.sub_0_r in *.
    destruct (allocate_then_close v i e) as (v1 & Halloc & Hclose);
      eauto.
    rewrite (bind_run _ _ _ _ _ _ Halloc), (bind_run _ _ _ _ _ _ Hclose).
    destruct (IH (mkVault (<[i := set_inUse true e]> (storage v)) false))
      as [evs Hrun]; [done| |].
    { intros k e' Hk Hu'. cbn in Hk.
      destruct (decide (i = k)) as [<-|Hne].
      - rewrite list_lookup_insert_eq in Hk by by eapply lookup_lt_Some.
        injection Hk as <-. done.
      - rewrite list_lookup_insert_ne in Hk by done. eauto. }
    unfold free_indices in Hrun. cbn [storage] in Hrun. rewrite Hrest in Hrun.
    change (take (S n) (i :: rest)) with (i :: take n rest).
    rewrite (flag_at_cons true i (take n rest) v e Hi), Hd.
    destruct (decide (n ≤ length rest)) as [Hle|Hgt].
    + rewrite (bind_run _ _ _ _ _ _ Hrun). cbn.
      rewrite decide_True by (cbn; lia). by eexists.
    + rewrite (bind_throw _ _ _ _ _ _ Hrun). cbn.
      rewrite decide_False by (cbn; lia). by eexists.
Qed.

(** X8: in any state (the directory mutex free, no free slot locked) with
    at least [n] free slots, [n] calls of [allocate], each view closed
    before the next call, return views of the [n] free slots of lowest
    index in increasing order, all different; exactly these slots become
    in use, and nothing else changes. *)
Theorem allocate_times_lowest_free v n :
  Vault_access v = false →
  (∀ k e, storage v !! k = Some e → inUse e = false → access e = false) →
  n ≤ length (free_indices v) →
  res (allocate_times n v) = Returned (mkView <$> take n (free_indices v)) ∧
  final (allocate_times n v) = flag_at true (take n (free_indices v)) v ∧
  (∀ j, j ∈ free_indices v ↔ ∃ e, storage v !! j = Some e ∧ inUse e = false) ∧
  (∀ a b x y, a < b → free_indices v !! a = Some x →
              free_indices v !! b = Some y → x < y).
Proof.
  intros Hd Hunl Hn.
  destruct (allocate_times_run n v Hd Hunl) as [evs ->].
  rewrite decide_True by done. cbn. split_and!; try done.
  - apply elem_of_free_indices.
  - apply free_from_increasing.
Qed.


End LoopProperties.

Section Draining.

Context {ElementData : Type}.
Implicit Types (v : Vault ElementData) (l : list (Element ElementData)).
Implicit Types (e : Element ElementData) (pred : ElementData → bool).

(** ** The draining loop *)

Lemma matches_set_inUse_false pred e : matches pred (set_inUse false e) = false.
Proof. done. Qed.

Lemma freed_where_none pred v :
  Vault_access v = false →
  Forall (λ e, matches pred e = false) (storage v) →
  freed_where pred v = v.
Proof.
  intros Hd Hall. unfold freed_where. rewrite <-(Vault_eta v false) at 2 by done.
  f_equal. apply list_eq; intros j. rewrite list_lookup_fmap.
  destruct (storage v !! j) as [e|] eqn:Hj; [|done]. cbn.
  by rewrite (proj1 (Forall_lookup _ _) Hall j e Hj).
Qed.

Lemma freed_where_insert pred v i e :
  storage v !! i = Some e → matches pred e = true →
  freed_where pred (mkVault (<[i := set_inUse false e]> (storage v)) false)
  = freed_where pred v.
Proof.
  intros Hi Hm. unfold freed_where. cbn. f_equal.
  apply list_eq; intros j. rewrite !list_lookup_fmap.
  destruct (decide (i = j)) as [<-|Hne].
  - rewrite list_lookup_insert_eq by by eapply lookup_lt_Some.
    rewrite Hi. cbn. by rewrite Hm.
  - by rewrite list_lookup_insert_ne.
Qed.

Lemma freed_where_no_match pred v :
  Forall (λ e, matches pred e = false) (storage (freed_where pred v)).
Proof.
  unfold freed_where. cbn. rewrite Forall_fmap. apply Forall_true.
  intros e. cbn. by destruct (matches pred e) eqn:Hm.
Qed.

Lemma in_use_freed_where pred l :
  count_if inUse ((λ e, if matches pred e then set_inUse false e else e) <$> l)
  + count_if (matches pred) l
  = count_if inUse l.
Proof.
  induction l as [|x l IH]; [done|]. cbn. unfold matches in *.
  destruct (inUse x) eqn:Hx, (pred (data x)); cbn; rewrite ?Hx; lia.
Qed.

Lemma drain_run pred fuel : ∀ v,
  count_if (matches pred) (storage v) < fuel →
  Vault_access v = false →
  (∀ i e, storage v !! i = Some e → matches pred e = true → access e = false) →
  ∃ evs,
    drain fuel pred v
    = mkRun (Returned (Some (count_if (matches pred) (storage v))))
            (freed_where pred v) evs.
Proof.
  induction fuel as [|fuel IH]; intros v Hfuel Hd Hunl; [lia|].
  cbn [drain].
  destruct (deallocate_pred_cases v pred) as [[Hd' _]|[(_ & Hall & Hrun)
    |[(i & e & _ & _ & Hi & Hm & Ha & _)|(i & e & _ & _ & Hi & Hm & Ha & Hrun)]]].
  - congruence.
  - rewrite (bind_run _ _ _ _ _ _ Hrun). cbn.
    rewrite (proj2 (count_if_zero _ _) Hall), freed_where_none by done.
    by eexists.
  - rewrite (Hunl i e Hi Hm) in Ha. done.
  - pose proof (count_if_insert (matches pred) _ i e (set_inUse false e) Hi)
      as Hcount.
    rewrite Hm, matches_set_inUse_false in Hcount.
    destruct (IH (mkVault (<[i := set_inUse false e]> (storage v)) false))
      as [evs Hrest]; [cbn; lia|done| |].
    { intros k e' Hk Hm'. cbn in Hk.
      destruct (decide (i = k)) as [<-|Hne].
      - rewrite list_lookup_insert_eq in Hk by by eapply lookup_lt_Some.
        injection Hk as <-. by rewrite matches_set_inUse_false in Hm'.
      - rewrite list_lookup_insert_ne in Hk by done. eauto. }
    rewrite (bind_run _ _ _ _ _ _ Hrun). cbn [res final events].
    rewrite (bind_run _ _ _ _ _ _ Hrest). cbn.
    rewrite (freed_where_insert pred v i e) by done.
    replace (count_if (matches pred) (storage v))
      with (S (count_if (matches pred) (<[i := set_inUse false e]> (storage v))))
      by lia.
    by eexists.
Qed.

(** X10: the draining loop [while (v.deallocate(pred)) ...] ends: with the
    directory mutex free and no matching slot locked, it makes exactly as
    many successful calls as there are slots in use whose payload
    satisfies [pred], frees exactly those slots, and every later
    [deallocate(pred)] returns [false] and changes nothing. *)
Theorem drain_counts_matches v pred fuel :
  Vault_access v = false →
  (∀ i e, storage v !! i = Some e → matches pred e = true → access e = false) →
  count_if (matches pred) (storage v) < fuel →
  res (drain fuel pred v)
  = Returned (Some (count_if (matches pred) (storage v))) ∧
  final (drain fuel pred v) = freed_where pred v ∧
  in_use (freed_where pred v) + count_if (matches pred) (storage v)
  = in_use v ∧
  deallocate_pred pred (freed_where pred v)
  = mkRun (Returned false) (freed_where pred v)
          [ev_lock directory; ev_unlock directory].
Proof.
  intros Hd Hunl Hfuel.
  destruct (drain_run pred fuel v Hfuel Hd Hunl) as [evs ->]. cbn [res final].
  split_and!; try done.
  - apply in_use_freed_where.
  - apply deallocate_pred_run_none; [done|].
    apply (find_if_none (matches pred)), freed_where_no_match.
Qed.

(** ** Freeing along a list of indices *)

Lemma slots_unlocked_flag_at b ixs v :
  slots_unlocked v → slots_unlocked (flag_at b ixs v).
Proof.
  unfold slots_unlocked. rewrite !Forall_lookup. intros Hunl j e. cbn.
  rewrite list_lookup_imap.
  destruct (storage v !! j) as [e'|] eqn:Hj; [|done]. cbn. intros [= <-].
  specialize (Hunl j e' Hj). by destruct (decide (j ∈ ixs)).
Qed.

Lemma flag_at_ext b ixs ixs' v :
  (∀ j, j ∈ ixs ↔ j ∈ ixs') → flag_at b ixs v = flag_at b ixs' v.
Proof.
  intros Hext. unfold flag_at. f_equal. apply list_eq; intros j.
  rewrite !list_lookup_imap. destruct (storage v !! j); [|done]. cbn.
  destruct (decide (j ∈ ixs)) as [Hin|Hnin], (decide (j ∈ ixs')) as [Hin'|Hnin'];
    try done.
  - by apply Hext in Hin.
  - by apply Hext in Hin'.
Qed.

Lemma count_for_deallocate ixs : ∀ v,
  Forall (λ i, i < length (storage v)) ixs → slots_unlocked v →
  ∃ c evs,
    count_for ixs deallocate v = mkRun (Returned c) (flag_at false ixs v) evs ∧
    c + in_use (flag_at false ixs v) = in_use v.
Proof.
  induction ixs as [|i ixs IH]; intros v Hall Hunl.
  { exists 0, []. cbn [count_for]. by rewrite flag_at_nil. }
  apply Forall_cons in Hall as [Hi Hall].
  destruct (lookup_lt_is_Some_2 _ _ Hi) as [e He].
  assert (access e = false) as Ha
    by (by apply (proj1 (Forall_lookup _ _) Hunl i e)).
  destruct (IH (mkVault (<[i := set_inUse false e]> (storage v))
                        (Vault_access v)))
    as (c & evs & Hrest & Hacc).
  { cbn. by rewrite length_insert. }
  { unfold slots_unlocked. cbn. by apply Forall_insert. }
  cbn [count_for]. rewrite (flag_at_cons false i ixs v e He).
  rewrite (bind_run _ _ _ _ _ _ (deallocate_run v i e He Ha)).
  cbn [res final events]. rewrite (bind_run _ _ _ _ _ _ Hrest).
  unfold ret. cbn [res final events].
  eexists _, _. split; [done|].
  pose proof (count_if_insert inUse (storage v) i e (set_inUse false e) He)
    as Hcount.
  unfold in_use in *. cbn [storage] in Hacc. cbn [set_inUse inUse] in Hcount.
  revert Hcount. destruct (inUse e); intros; lia.
Qed.

(** X11: [deallocate(idx)] along any list of indices below the size of
    the array (no slot mutex held) never fails; the number of calls that
    return [true] is exactly the number of slots that stop being in use;
    the listed slots end free, the others are as before; and a second
    pass over the same list returns [true] for none. *)
Theorem deallocate_along_indices v ixs :
  Forall (λ i, i < length (storage v)) ixs → slots_unlocked v →
  ∃ c,
    res (count_for ixs deallocate v) = Returned c ∧
    final (count_for ixs deallocate v) = flag_at false ixs v ∧
    c + in_use (flag_at false ixs v) = in_use v ∧
    res (count_for ixs deallocate (flag_at false ixs v)) = Returned 0.
Proof.
  intros Hall Hunl.
  destruct (count_for_deallocate ixs v Hall Hunl) as (c & evs & Hrun & Hacc).
  exists c. rewrite Hrun. cbn [res final]. split_and!; try done.
  destruct (count_for_deallocate ixs (flag_at false ixs v))
    as (c2 & evs2 & Hrun2 & Hacc2).
  { cbn. by rewrite length_imap. }
  { by apply slots_unlocked_flag_at. }
  rewrite Hrun2. cbn. f_equal.
  rewrite flag_at_app in Hacc2.
  rewrite (flag_at_ext false (ixs ++ ixs) ixs) in Hacc2; [lia|].
  intros j. rewrite elem_of_app. tauto.
Qed.

(** ** The deallocation phase of the driver *)

Lemma stride2_lt fuel : ∀ i, Forall (λ j, j < maxElementNumber) (stride2 fuel i).
Proof.
  induction fuel as [|fuel IH]; intros i; cbn [stride2]; [constructor|].
  destruct (decide (i < maxElementNumber)); [|constructor].
  constructor; [done|apply IH].
Qed.

Lemma stride2_elem k : ∀ fuel i,
  k < fuel → i + 2 * k < maxElementNumber → i + 2 * k ∈ stride2 fuel i.
Proof.
  induction k as [|k IH]; intros fuel i Hk Hlt;
    (destruct fuel as [|fuel]; [lia|]); cbn [stride2];
    rewrite decide_True by lia.
  - rewrite Nat.mul_0_r, Nat.add_0_r. by left.
  - right. replace (i + 2 * S k) with (i + 2 + 2 * k) by lia.
    apply IH; lia.
Qed.

Lemma elem_of_stride2 fuel : ∀ i j,
  j ∈ stride2 fuel i → j < maxElementNumber ∧ ∃ k, k < fuel ∧ j = i + 2 * k.
Proof.
  induction fuel as [|fuel IH]; intros i j; cbn [stride2].
  { by intros ?%elem_of_nil. }
  destruct (decide (i < maxElementNumber)); [|by intros ?%elem_of_nil].
  intros [->|Hj]%elem_of_cons.
  - split; [done|]. exists 0. lia.
  - apply IH in Hj as (? & k & ? & ->). split; [done|]. exists (S k). lia.
Qed.

Lemma sum_for_deallocate (g : nat → list nat) ts : ∀ v,
  (∀ t, Forall (λ i, i < length (storage v)) (g t)) → slots_unlocked v →
  ∃ c evs,
    sum_for ts (λ t, count_for (g t) deallocate) v
    = mkRun (Returned c) (flag_at false (ts ≫= g) v) evs ∧
    c + in_use (flag_at false (ts ≫= g) v) = in_use v.
Proof.
  induction ts as [|t ts IH]; intros v Hall Hunl.
  { exists 0, []. cbn [sum_for]. change ([] ≫= g) with (@nil nat).
    by rewrite flag_at_nil. }
  destruct (count_for_deallocate (g t) v (Hall t) Hunl)
    as (c1 & evs1 & Hrun1 & Hacc1).
  destruct (IH (flag_at false (g t) v)) as (c2 & evs2 & Hrun2 & Hacc2).
  { intros t'. cbn. rewrite length_imap. apply Hall. }
  { by apply slots_unlocked_flag_at. }
  cbn [sum_for]. rewrite bind_cons, <-flag_at_app.
  rewrite (bind_run _ _ _ _ _ _ Hrun1). cbn [res final events].
  rewrite (bind_run _ _ _ _ _ _ Hrun2). unfold ret. cbn [res final events].
  eexists _, _. split; [done|]. lia.
Qed.

(** X12: the deallocation phase of the driver, its eight loops run one
    after another on a pool with no slot mutex held: although the index
    ranges of the loops overlap, the calls that return [true] number
    exactly the slots that were in use, and every slot ends free with its
    payload as before. *)
Theorem deallocate_phase_counts_in_use v :
  wf v → slots_unlocked v →
  res (deallocate_phase v) = Returned (in_use v) ∧
  final (deallocate_phase v)
  = mkVault (set_inUse false <$> storage v) (Vault_access v) ∧
  in_use (final (deallocate_phase v)) = 0.
Proof.
  intros Hwf Hunl. unfold deallocate_phase, deallocate_thread.
  destruct (sum_for_deallocate (stride2 maxElementNumber) (seq 0 threadsCount) v)
    as (c & evs & Hrun & Hacc); [|done|].
  { intros t. rewrite Hwf. apply stride2_lt. }
  assert (flag_at false (seq 0 threadsCount ≫= stride2 maxElementNumber) v
          = mkVault (set_inUse false <$> storage v) (Vault_access v)) as Hall.
  { apply flag_at_all. rewrite Hwf. intros j Hj.
    apply list_elem_of_bind. exists (j `mod` 2). split.
    - pose proof (Nat.div_mod_eq j 2) as Hdiv.
      replace j with (j `mod` 2 + 2 * (j `div` 2)) at 1 by lia.
      apply stride2_elem; [|lia].
      pose proof (Nat.Div0.div_le_upper_bound j 2 j). lia.
    - apply elem_of_seq. pose proof (Nat.mod_upper_bound j 2).
      unfold threadsCount. lia. }
  rewrite Hall in *.
  assert (in_use (mkVault (set_inUse false <$> storage v) (Vault_access v)) = 0)
    as Hzero.
  { unfold in_use. cbn. apply count_if_zero. rewrite Forall_fmap.
    by apply Forall_true. }
  rewrite Hrun. cbn [res final]. split_and!; try done. f_equal. lia.
Qed.

End Draining.

(** ** The filling loops *)

Lemma free_from_flags {ElementData} (l l' : list (Element ElementData)) : ∀ i,
  inUse <$> l = inUse <$> l' → free_from i l = free_from i l'.
Proof.
  revert l'. induction l as [|x l IH]; intros [|y l'] i; cbn; try done.
  intros [= Hxy Hl]. rewrite Hxy, (IH l' (S i) Hl). done.
Qed.

Lemma free_from_all_free {ElementData} (l : list (Element ElementData)) : ∀ i,
  Forall (λ e, inUse e = false) l → free_from i l = seq i (length l).
Proof.
  induction l as [|x l IH]; intros i Hall; cbn; [done|].
  apply Forall_cons in Hall as [-> Hall]. by rewrite IH.
Qed.

Lemma free_from_app_used {ElementData} (pre suf : list (Element ElementData)) :
  ∀ i, Forall (λ e, inUse e = true) pre →
       free_from i (pre ++ suf) = free_from (i + length pre) suf.
Proof.
  induction pre as [|x pre IH]; intros i Hall; cbn.
  - by rewrite Nat.add_0_r.
  - apply Forall_cons in Hall as [-> Hall]. rewrite IH by done.
    f_equal. lia.
Qed.

Lemma fill_step_run (v : Vault Data) i n k e :
  Vault_access v = false →
  storage v !! k = Some e → inUse e = false → access e = false →
  (∀ j e', j < k → storage v !! j = Some e' → inUse e' = true) →
  ∃ evs,
    fill_step i n v
    = mkRun (Returned ()) (mkVault (<[k := tagged i n]> (storage v)) false) evs.
Proof.
  intros Hd Hk Hu Ha Hbefore. pose proof (lookup_lt_Some _ _ _ Hk) as Hlt.
  unfold fill_step.
  rewrite (bind_run _ _ _ _ _ _ (allocate_run v k e Hd Hk Hu Ha Hbefore)).
  unfold scope, ElementView_modify, ElementView_dtor, unlock, mbind, M_bind,
    bind. cbn.
  rewrite !list_alter_alter_eq.
  rewrite (alter_Some _ _ _ (mkElement (data e) true true))
    by (by apply list_lookup_insert_eq).
  rewrite list_insert_insert_eq. by eexists.
Qed.

Lemma fill_loop_run i c : ∀ n0 (v : Vault Data),
  Vault_access v = false →
  (∀ k e, storage v !! k = Some e → inUse e = false → access e = false) →
  c ≤ length (free_indices v) →
  ∃ vf evs,
    for_ (seq n0 c) (fill_step i) v = mkRun (Returned ()) vf evs ∧
    Vault_access vf = false ∧
    length (storage vf) = length (storage v) ∧
    (∀ n j, take c (free_indices v) !! n = Some j →
            storage vf !! j = Some (tagged i (n0 + n))) ∧
    (∀ j, j ∉ take c (free_indices v) → storage vf !! j = storage v !! j).
Proof.
  induction c as [|c IH]; intros n0 v Hd Hunl Hc.
  { exists v, []. cbn [seq for_]. by split_and!. }
  pose proof (NoDup_free_from 0 (storage v)) as Hnd.
  fold (free_indices v) in Hnd.
  destruct (free_indices v) as [|k rest] eqn:Hfr; [cbn in Hc; lia|].
  pose proof Hfr as Hhead.
  apply free_from_head in Hhead as (_ & e & Hk & Hu & Hbefore & Hrest).
  rewrite Nat.sub_0_r in *.
  pose proof (lookup_lt_Some _ _ _ Hk) as Hlt.
  destruct (fill_step_run v i n0 k e) as [evs1 Hstep]; eauto.
  set (v' := mkVault (<[k := tagged i n0]> (storage v)) false) in *.
  assert (free_indices v' = rest) as Hfr'.
  { unfold free_indices, v'. cbn [storage]. rewrite <-Hrest.
    apply free_from_flags. by rewrite !list_fmap_insert. }
  destruct (IH (S n0) v') as (vf & evs2 & Hrun & Hdf & Hlen & Hin & Hout).
  { done. }
  { intros j e' Hj Hu'. unfold v' in Hj. cbn in Hj.
    destruct (decide (k = j)) as [<-|Hne].
    - rewrite list_lookup_insert_eq in Hj by done. by injection Hj as <-.
    - rewrite list_lookup_insert_ne in Hj by done. eauto. }
  { rewrite Hfr'. cbn in Hc. lia. }
  rewrite Hfr' in *. apply NoDup_cons in Hnd as [Hk_rest _].
  assert (k ∉ take c rest) as Hk_take.
  { intros (n & Hn & _)%elem_of_take. apply Hk_rest.
    by eapply list_elem_of_lookup_2. }
  exists vf, (evs1 ++ evs2)%list. cbn [seq for_].
  rewrite (bind_run _ _ _ _ _ _ Hstep), Hrun. cbn [res final events].
  split_and!; try done.
  - rewrite Hlen. unfold v'. cbn. by rewrite length_insert.
  - intros [|n] j; cbn.
    + intros [= <-]. rewrite (Hout k Hk_take). unfold v'. cbn.
      rewrite Nat.add_0_r. by apply list_lookup_insert_eq.
    + intros Hn. replace (n0 + S n) with (S n0 + n) by lia. by apply Hin.
  - intros j Hj. cbn in Hj. apply not_elem_of_cons in Hj as [Hjk Hj].
    rewrite (Hout j Hj). unfold v'. cbn. by apply list_lookup_insert_ne.
Qed.

(** X13: the filling loop of thread [i], in any state with the directory
    mutex free, no free slot locked and at least
    [maxElementNumber / threadsCount] free slots: it returns; the [n]-th
    free slot in index order ends in use, unlocked, with [field_1 = 0] and
    [field_3] the text "<i+1>_<n+1>"; every other slot is as before. *)
Theorem fill_thread_tags_lowest_free (v : Vault Data) i :
  Vault_access v = false →
  (∀ k e, storage v !! k = Some e → inUse e = false → access e = false) →
  maxElementNumber / threadsCount ≤ length (free_indices v) →
  let taken := take (maxElementNumber / threadsCount) (free_indices v) in
  res (fill_thread i v) = Returned () ∧
  Vault_access (final (fill_thread i v)) = false ∧
  (∀ n j, taken !! n = Some j →
          storage (final (fill_thread i v)) !! j
          = Some (mkElement (mkData 0 (format_tag (i + 1) (n + 1))) false true)) ∧
  (∀ j, j ∉ taken →
        storage (final (fill_thread i v)) !! j = storage v !! j).
Proof.
  intros Hd Hunl Hc taken. unfold fill_thread.
  destruct (fill_loop_run i (maxElementNumber / threadsCount) 0 v Hd Hunl Hc)
    as (vf & evs & -> & Hdf & _ & Hin & Hout).
  cbn [res final]. split_and!; try done.
Qed.

(** The slots written by thread [i] in [c] iterations. *)
Lemma fill_thread_block (v : Vault Data) i c (pre suf : list (Element Data)) :
  storage v = (pre ++ suf)%list → Vault_access v = false →
  Forall (λ e, inUse e = true) pre →
  Forall (λ e, inUse e = false) suf → Forall (λ e, access e = false) suf →
  c ≤ length suf →
  ∃ evs,
    for_ (seq 0 c) (fill_step i) v
    = mkRun (Returned ())
            (mkVault (pre ++ (tagged i <$> seq 0 c) ++ drop c suf)%list false)
            evs.
Proof.
  intros Hst Hd Hpre Hfree Hunl Hc.
  assert (free_indices v = seq (length pre) (length suf)) as Hfr.
  { unfold free_indices. rewrite Hst, free_from_app_used by done.
    by apply free_from_all_free. }
  destruct (fill_loop_run i c 0 v) as (vf & evs & Hrun & Hdf & Hlen & Hin & Hout).
  { done. }
  { intros k e Hk Hu. rewrite Hst in Hk.
    apply lookup_app_Some in Hk as [Hk|[_ Hk]].
    - rewrite (proj1 (Forall_lookup _ _) Hpre k e Hk) in Hu. done.
    - by apply (proj1 (Forall_lookup _ _) Hunl _ e Hk). }
  { rewrite Hfr, length_seq. done. }
  exists evs. rewrite Hrun. f_equal. destruct vf as [lf af]. cbn in *.
  subst af. f_equal. rewrite Hfr, take_seq, Nat.min_l in * by done.
  rewrite Hst in *. rewrite length_app in Hlen.
  apply list_eq; intros j.
  destruct (decide (j < length pre)) as [Hj1|Hj1].
  - rewrite Hout by (rewrite elem_of_seq; lia).
    by rewrite !lookup_app_l by done.
  - destruct (decide (j < length pre + c)) as [Hj2|Hj2].
    + rewrite (Hin (j - length pre) j) by (apply lookup_seq; lia).
      rewrite lookup_app_r by lia.
      rewrite lookup_app_l by (rewrite length_fmap, length_seq; lia).
      rewrite list_lookup_fmap.
      by rewrite (proj2 (lookup_seq 0 c (j - length pre) (j - length pre)))
        by lia.
    + rewrite Hout by (rewrite elem_of_seq; lia).
      rewrite !lookup_app_r by (rewrite ?length_fmap, ?length_seq; lia).
      rewrite length_fmap, length_seq, lookup_drop. f_equal. lia.
Qed.

(** The slots written by the threads [t0], [t0 + 1], ... run one after
    another. *)
Lemma fill_phase_blocks m : ∀ t0 (v : Vault Data) (pre suf : list (Element Data)),
  storage v = (pre ++ suf)%list → Vault_access v = false →
  Forall (λ e, inUse e = true) pre →
  Forall (λ e, inUse e = false) suf → Forall (λ e, access e = false) suf →
  m * (maxElementNumber / threadsCount) ≤ length suf →
  ∃ evs,
    for_ (seq t0 m) fill_thread v
    = mkRun (Returned ())
        (mkVault (pre
                  ++ (seq t0 m ≫= λ t,
                        tagged t <$> seq 0 (maxElementNumber / threadsCount))
                  ++ drop (m * (maxElementNumber / threadsCount)) suf)%list
                 false) evs.
Proof.
  unfold fill_thread. generalize (maxElementNumber / threadsCount). intros c.
  induction m as [|m IH]; intros t0 v pre suf Hst Hd Hpre Hfree Hunl Hm.
  { exists []. cbn [seq for_]. change ([] ≫= _) with (@nil (Element Data)).
    cbn. rewrite drop_0, <-Hst. unfold mret, M_ret, ret. by rewrite Vault_eta. }
  cbn [seq for_].
  destruct (fill_thread_block v t0 c pre suf) as [evs1 Hrun1];
    [done..|lia|].
  destruct (IH (S t0)
              (mkVault (pre ++ (tagged t0 <$> seq 0 c) ++ drop c suf)%list false)
              (pre ++ (tagged t0 <$> seq 0 c))%list (drop c suf))
    as [evs2 Hrun2].
  { cbn. by rewrite <-app_assoc. }
  { done. }
  { apply Forall_app. split; [done|]. rewrite Forall_fmap. by apply Forall_true. }
  { by apply Forall_drop. }
  { by apply Forall_drop. }
  { rewrite length_drop. lia. }
  rewrite (bind_run _ _ _ _ _ _ Hrun1), Hrun2. cbn [res final events].
  eexists. f_equal. f_equal. by rewrite bind_cons, drop_drop, <-!app_assoc.
Qed.

(** X14: the driver's second filling phase followed by its draining loop,
    the threads run one after another: on a pool with every slot free and
    no mutex held (whatever the payloads left by earlier uses), the eight
    filling loops take all slots, and the draining loop for the texts that
    start with "2_" then makes exactly [maxElementNumber / threadsCount]
    successful calls, the number the driver prints as expected, and
    leaves the other slots in use. *)
Theorem fill_then_drain_counts (v : Vault Data) fuel :
  wf v → Vault_access v = false → slots_unlocked v →
  Forall (λ e, inUse e = false) (storage v) →
  maxElementNumber / threadsCount < fuel →
  res (fill_phase v) = Returned () ∧
  in_use (final (fill_phase v)) = maxElementNumber ∧
  res ((fill_phase ;; drain fuel prefix_pred) v)
  = Returned (Some (maxElementNumber / threadsCount)) ∧
  in_use (final ((fill_phase ;; drain fuel prefix_pred) v))
  = maxElementNumber - maxElementNumber / threadsCount.
Proof.
  intros Hwf Hd Hunl Hfree Hfuel. unfold fill_phase.
  destruct (fill_phase_blocks threadsCount 0 v [] (storage v)) as [evs Hfill];
    try done.
  { rewrite Hwf. vm_compute. lia. }
  rewrite drop_ge, app_nil_r in Hfill by (rewrite Hwf; vm_compute; lia).
  cbn [app] in Hfill.
  set (vfull := mkVault
         (seq 0 threadsCount ≫= λ t,
            tagged t <$> seq 0 (maxElementNumber / threadsCount)) false) in *.
  assert (count_if (matches prefix_pred) (storage vfull)
          = maxElementNumber / threadsCount) as Hcount
    by (vm_compute; reflexivity).
  assert (in_use vfull = maxElementNumber) as Hin_use
    by (vm_compute; reflexivity).
  destruct (drain_run prefix_pred fuel vfull) as [evs' Hdrain].
  { rewrite Hcount. done. }
  { done. }
  { intros i e Hi _. apply list_elem_of_lookup_2 in Hi. unfold vfull in Hi.
    cbn [storage] in Hi. apply list_elem_of_bind in Hi as (t & He & _).
    apply list_elem_of_fmap in He as (n & -> & _). done. }
  pose proof (in_use_freed_where prefix_pred (storage vfull)) as Hacc.
  fold (in_use vfull) in Hacc. rewrite Hcount, Hin_use in Hacc.
  rewrite Hfill. cbn [res final]. split; [done|]. split; [done|].
  rewrite (bind_run _ _ _ _ _ _ Hfill), Hdrain. cbn [res final].
  rewrite Hcount. split; [done|]. unfold in_use, freed_where. cbn [storage].
  lia.
Qed.

(** * The further properties on concrete pools *)


Lemma throw_leaves_state_witness :
  final (view 1 sample) = sample ∧
  final (allocate full) = full ∧
  final (deallocate 1024 sample) = sample ∧
  final (dump field_3 field_1 sample) = sample.
Proof.
  split; [|split; [|split]].
  - apply (proj1 (throw_leaves_state field_3 field_1 sample) 1
             (out_of_range "no such element")).
    vm_compute. reflexivity.
  - apply (proj1 (proj2 (throw_leaves_state field_3 field_1 full))
             (out_of_range "no empty element found")).
    vm_compute. reflexivity.
  - apply (proj1 (proj2 (proj2 (throw_leaves_state field_3 field_1 sample))) 1024
             (mkException std_out_of_range (what_array_at 1024 1024))).
    vm_compute. reflexivity.
  - apply (proj2 (proj2 (proj2 (throw_leaves_state field_3 field_1 sample)))
             (out_of_range "no such element")).
    vm_compute. reflexivity.
Defined.

Lemma locks_balanced_witness :
  (mkView 2 = mkView 2 ∧ held (slot 2) sample = false ∧
   mutexes (final (view 2 sample)) = mutexes (set_held (slot 2) true sample)) ∧
  (held (slot (ref (mkView 1))) sample = false ∧
   mutexes (final (allocate sample))
   = mutexes (set_held (slot (ref (mkView 1))) true sample)) ∧
  mutexes (final (deallocate 2 sample)) = mutexes sample ∧
  mutexes (final (deallocate_pred prefix_pred sample)) = mutexes sample ∧
  final (dump field_3 field_1 full) = full.
Proof.
  split; [|split; [|split; [|split]]].
  - apply (proj1 (locks_balanced field_3 field_1 sample) 2 (mkView 2)).
    vm_compute. reflexivity.
  - apply (proj1 (proj2 (locks_balanced field_3 field_1 sample)) (mkView 1)).
    vm_compute. reflexivity.
  - apply (proj1 (proj2 (proj2 (locks_balanced field_3 field_1 sample))) 2 true).
    vm_compute. reflexivity.
  - apply (proj1 (proj2 (proj2 (proj2 (locks_balanced field_3 field_1 sample))))
             prefix_pred true).
    vm_compute. reflexivity.
  - apply (proj2 (proj2 (proj2 (proj2 (locks_balanced field_3 field_1 full))))).
    vm_compute. reflexivity.
Defined.

Lemma open_view_excludes_witness :
  (∃ v1,
     view 2 sample = mkRun (Returned (mkView 2)) v1 [ev_lock (slot 2)] ∧
     view 2 v1 = mkRun (Blocked (slot 2)) v1 [] ∧
     deallocate 2 v1 = mkRun (Blocked (slot 2)) v1 [] ∧
     final (ElementView_dtor (mkView 2) v1) = sample) ∧
  (∃ v1 v2,
     res (allocate sample) = Returned (mkView 1) ∧ final (allocate sample) = v1 ∧
     view 1 v1 = mkRun (Blocked (slot 1)) v1 [] ∧
     deallocate 1 v1 = mkRun (Blocked (slot 1)) v1 [] ∧
     final (ElementView_dtor (mkView 1) v1) = v2 ∧
     res (view 1 v2) = Returned (mkView 1) ∧
     res (deallocate 1 v2) = Returned true).
Proof.
  split.
  - apply (proj1 open_view_excludes sample 2
             (mkElement (mkData 3 "2_2") false true)); reflexivity.
  - apply (proj2 open_view_excludes sample 1
             (mkElement (mkData 2 "2_1") false false)); try reflexivity.
    intros j e' Hj. destruct j as [|j]; [|lia]. cbn. by intros [= <-].
Defined.

Lemma update_through_view_witness :
  let update :=
    view 2 ≫= λ vw,
      scope (ElementView_modify vw (λ d, mkData (field_1 d + 1) (field_3 d)))
            (ElementView_dtor vw) in
  res (update sample) = Returned () ∧
  final (update sample)
  = mkVault (<[2 := set_data (mkData (3 + 1) "2_2")
                      (mkElement (mkData 3 "2_2") false true)]>
               (storage sample)) (Vault_access sample) ∧
  res (view 2 (final (update sample))) = Returned (mkView 2) ∧
  ElementView_get (mkView 2) (final (view 2 (final (update sample))))
  = Some (mkData (3 + 1) "2_2").
Proof.
  apply (update_through_view sample 2 (mkElement (mkData 3 "2_2") false true)
           (λ d, mkData (field_1 d + 1) (field_3 d))); reflexivity.
Defined.

Lemma allocate_reuses_freed_slot_witness :
  res ((deallocate 0 ;; allocate) sample) = Returned (mkView 0) ∧
  final ((deallocate 0 ;; allocate) sample) = final (view 0 sample) ∧
  ElementView_get (mkView 0) (final ((deallocate 0 ;; allocate) sample))
  = Some (mkData 1 "1_1").
Proof.
  apply (allocate_reuses_freed_slot sample 0
           (mkElement (mkData 1 "1_1") false true)); try reflexivity.
  intros j e' Hj. lia.
Defined.

Lemma allocate_waits_holding_directory_witness :
  ∃ v1,
    allocate busy
    = mkRun (Blocked (slot 1)) v1 [ev_lock directory; ev_store 1 true] ∧
    held directory v1 = true ∧
    inUse <$> storage v1 !! 1 = Some true ∧
    allocate v1 = mkRun (Blocked directory) v1 [] ∧
    (∀ pred, deallocate_pred pred v1 = mkRun (Blocked directory) v1 []).
Proof.
  apply (allocate_waits_holding_directory busy 1
           (mkElement (mkData 2 "2_1") true false)); try reflexivity.
  intros j e' Hj. destruct j as [|j]; [|lia]. cbn. by intros [= <-].
Defined.

Lemma sample_free_unlocked k e :
  storage sample !! k = Some e → inUse e = false → access e = false.
Proof. intros Hk _. exact (sample_lookup_unlocked k e Hk). Qed.

Lemma allocate_times_lowest_free_witness :
  res (allocate_times 2 sample)
  = Returned (mkView <$> take 2 (free_indices sample)) ∧
  final (allocate_times 2 sample) = flag_at true (take 2 (free_indices sample)) sample ∧
  (∀ j, j ∈ free_indices sample ↔
        ∃ e, storage sample !! j = Some e ∧ inUse e = false) ∧
  (∀ a b x y, a < b → free_indices sample !! a = Some x →
              free_indices sample !! b = Some y → x < y).
Proof.
  apply (allocate_times_lowest_free sample 2).
  - reflexivity.
  - exact sample_free_unlocked.
  - vm_compute. lia.
Defined.


Lemma drain_counts_matches_witness :
  res (drain 5 prefix_pred sample)
  = Returned (Some (count_if (matches prefix_pred) (storage sample))) ∧
  final (drain 5 prefix_pred sample) = freed_where prefix_pred sample ∧
  in_use (freed_where prefix_pred sample)
  + count_if (matches prefix_pred) (storage sample)
  = in_use sample ∧
  deallocate_pred prefix_pred (freed_where prefix_pred sample)
  = mkRun (Returned false) (freed_where prefix_pred sample)
          [ev_lock directory; ev_unlock directory].
Proof.
  apply (drain_counts_matches sample prefix_pred 5).
  - reflexivity.
  - intros i e Hi _. exact (sample_lookup_unlocked i e Hi).
  - vm_compute. lia.
Defined.

Lemma deallocate_along_indices_witness :
  ∃ c,
    res (count_for [0; 2; 2; 5] deallocate sample) = Returned c ∧
    final (count_for [0; 2; 2; 5] deallocate sample)
    = flag_at false [0; 2; 2; 5] sample ∧
    c + in_use (flag_at false [0; 2; 2; 5] sample) = in_use sample ∧
    res (count_for [0; 2; 2; 5] deallocate (flag_at false [0; 2; 2; 5] sample))
    = Returned 0.
Proof.
  apply (deallocate_along_indices sample [0; 2; 2; 5]).
  - repeat constructor; vm_compute; lia.
  - exact sample_unlocked.
Defined.

Lemma deallocate_phase_counts_in_use_witness :
  res (deallocate_phase sample) = Returned (in_use sample) ∧
  final (deallocate_phase sample)
  = mkVault (set_inUse false <$> storage sample) (Vault_access sample) ∧
  in_use (final (deallocate_phase sample)) = 0.
Proof.
  apply (deallocate_phase_counts_in_use sample).
  - exact sample_wf.
  - exact sample_unlocked.
Defined.

Lemma fill_thread_tags_lowest_free_witness :
  let taken := take (maxElementNumber / threadsCount) (free_indices sample) in
  res (fill_thread 1 sample) = Returned () ∧
  Vault_access (final (fill_thread 1 sample)) = false ∧
  (∀ n j, taken !! n = Some j →
          storage (final (fill_thread 1 sample)) !! j
          = Some (mkElement (mkData 0 (format_tag (1 + 1) (n + 1))) false true)) ∧
  (∀ j, j ∉ taken →
        storage (final (fill_thread 1 sample)) !! j = storage sample !! j).
Proof.
  apply (fill_thread_tags_lowest_free sample 1).
  - reflexivity.
  - exact sample_free_unlocked.
  - vm_compute. lia.
Defined.

Lemma fill_then_drain_counts_witness :
  res (fill_phase (Vault_init Data_init)) = Returned () ∧
  in_use (final (fill_phase (Vault_init Data_init))) = maxElementNumber ∧
  res ((fill_phase ;; drain 200 prefix_pred) (Vault_init Data_init))
  = Returned (Some (maxElementNumber / threadsCount)) ∧
  in_use (final ((fill_phase ;; drain 200 prefix_pred) (Vault_init Data_init)))
  = maxElementNumber - maxElementNumber / threadsCount.
Proof.
  apply (fill_then_drain_counts (Vault_init Data_init) 200).
  - unfold wf. cbn. apply length_replicate.
  - reflexivity.
  - by apply Forall_replicate.
  - by apply Forall_replicate.
  - vm_compute. lia.
Defined.
